(** * srv.py: a mock provisioning service for memcached groups

    A shallow embedding of [src/srv.py]: the in-memory store [GROUPS], the
    first-fit address allocator [allocate_ip], the factory [create_group] and
    the REST handlers of [Group] and [GroupList], followed by the properties
    of the specification that were checked against them. *)

From Stdlib Require Import SpecFloat Ascii.
From stdpp Require Import gmap mapset strings list fin_maps sorting.

Local Open Scope string_scope.

(** ** Python values *)

(** A Python [float] is an IEEE 754 binary64 number. *)
Definition float : Type := spec_float.

(** The literal [0.5], that is 2^52 * 2^-53. *)
Definition float_0_5 : float := S754_finite false 4503599627370496 (-53).

(** The literal [1.2], rounded to the nearest binary64 number. *)
Definition float_1_2 : float := S754_finite false 5404319552844595 (-52).

(** [bool(x)] for a float: false exactly for the two zeros. *)
Definition float_truthy (x : float) : bool :=
  match x with
  | S754_zero _ => false
  | _ => true
  end.

(** [bool(s)] for a string: false exactly for the empty string. *)
Definition str_truthy (s : string) : bool :=
  match s with
  | EmptyString => false
  | String _ _ => true
  end.

(** [s.split(sep)] for a one-character separator. *)
Fixpoint split (sep : ascii) (s : string) : list string :=
  match s with
  | EmptyString => [EmptyString]
  | String c r =>
      if decide (c = sep) then EmptyString :: split sep r
      else match split sep r with
           | h :: t => String c h :: t
           | [] => [String c EmptyString]
           end
  end.

(** ** The [ipaddress] module, as far as [allocate_ip] uses it *)

Module ipaddress.

Definition digit_value (c : ascii) : option N :=
  let n := N_of_ascii c in
  if (48 <=? n)%N && (n <=? 57)%N then Some (n - 48)%N else None.

Fixpoint int_of_digits (acc : N) (s : string) : option N :=
  match s with
  | EmptyString => Some acc
  | String c r =>
      match digit_value c with
      | Some d => int_of_digits (10 * acc + d)%N r
      | None => None
      end
  end.

(** [int(s)] on a non-empty string of decimal digits. *)
Definition int (s : string) : option N :=
  match s with
  | EmptyString => None
  | _ => int_of_digits 0%N s
  end.

(** An [IPv4Address] is its 32-bit integer. *)
Definition ip_address (s : string) : option N :=
  match int <$> split "."%char s with
  | [Some a; Some b; Some c; Some d] =>
      if forallb (fun o => (o <=? 255)%N) [a; b; c; d]
      then Some (((a * 256 + b) * 256 + c) * 256 + d)%N
      else None
  | _ => None
  end.

Record IPv4Network := { network_address : N; prefixlen : N }.

(** [ip_network(s)] in strict mode: host bits set are a [ValueError],
    here [None]. *)
Definition ip_network (s : string) : option IPv4Network :=
  match split "/"%char s with
  | [a; p] =>
      match ip_address a, int p with
      | Some a, Some p =>
          if (p <=? 32)%N && (a mod 2 ^ (32 - p) =? 0)%N
          then Some {| network_address := a; prefixlen := p |}
          else None
      | _, _ => None
      end
  | _ => None
  end.

Definition num_addresses (net : IPv4Network) : N := (2 ^ (32 - prefixlen net))%N.

(** [count] consecutive integers from [a] on. *)
Fixpoint range (a : N) (count : nat) : list N :=
  match count with
  | O => []
  | S count => a :: range (N.succ a) count
  end.

(** [iter(net)]: every address from the network address to the broadcast
    address, in ascending order. *)
Definition addresses (net : IPv4Network) : list N :=
  range (network_address net) (N.to_nat (num_addresses net)).

Definition digit (n : N) : ascii := ascii_of_N (48 + n).

(** [str(n)] for an octet. *)
Definition str_octet (n : N) : string :=
  if (n <? 10)%N then String (digit n) EmptyString
  else if (n <? 100)%N then String (digit (n / 10)) (String (digit (n mod 10)) EmptyString)
  else String (digit (n / 100))
         (String (digit (n / 10 mod 10)) (String (digit (n mod 10)) EmptyString)).

(** [str(addr)]: the dotted-decimal form. *)
Definition str (a : N) : string :=
  str_octet (a / 16777216 mod 256) +:+ "." +:+ str_octet (a / 65536 mod 256) +:+ "."
  +:+ str_octet (a / 256 mod 256) +:+ "." +:+ str_octet (a mod 256).

End ipaddress.

(** ** The data model *)

(** The embedded health-state descriptor of a group. *)
Record State := { s_id : string; s_name : string; s_type : string }.

(** One element of [group['instances']]; [addr] is [None] when the allocator
    returned nothing. *)
Record Instance := {
  i_id : string;
  i_name : string;
  i_addr : option string;
  i_host : string
}.

(** A group dictionary, key by key. *)
Record Group := {
  g_name : string;
  g_id : string;
  g_memsize : float;
  g_type : string;
  g_state : State;
  g_instances : list Instance
}.

Definition ALLOC_SUBNET : string := "172.20.0.0/16".

(** The network of [ALLOC_SUBNET]. *)
Definition net : ipaddress.IPv4Network :=
  default {| ipaddress.network_address := 0; ipaddress.prefixlen := 32 |}
          (ipaddress.ip_network ALLOC_SUBNET).

(** ** The allocator *)

(** [s.add(x)] on a set: one insertion into the underlying map. *)
Definition set_add {K : Type} `{!EqDecision K, !Countable K} (x : K) (s : gset K) : gset K :=
  Mapset (<[x := tt]> (mapset_car s)).

(** The two nested loops of [allocate_ip]: every [addr] of every instance of
    every group is added to the set, which starts with
    [ALLOC_SUBNET.split('/')[0]], the text of the network address ([split]
    never returns the empty list, so the subscript cannot fail). The elements
    are Python values: a text or [None]. *)
Definition allocated_ips (GROUPS : gmap string Group) : gset (option string) :=
  map_fold
    (fun _ group acc => foldl (fun acc instance => set_add (i_addr instance) acc) acc (g_instances group))
    {[ Some (hd EmptyString (split "/"%char ALLOC_SUBNET)) ]}
    GROUPS.

(** The final loop of [allocate_ip], over the addresses still to visit; falling
    off its end returns [None]. *)
Fixpoint first_not_in (except_list : gset (option string)) (addrs : list N) : option string :=
  match addrs with
  | [] => None
  | addr :: rest =>
      if decide (Some (ipaddress.str addr) ∉ except_list) then Some (ipaddress.str addr)
      else first_not_in except_list rest
  end.

Definition allocate_ip (GROUPS : gmap string Group) (skip : list (option string)) : option string :=
  let except_list := allocated_ips GROUPS ∪ list_to_set skip in
  first_not_in except_list (ipaddress.addresses net).

(** ** Exceptions and the handler monad *)

(** What a handler can raise: [abort(code, message=...)] of flask_restful and
    the [KeyError] of a failed dictionary subscript, which no handler
    catches. *)
Inductive Exn :=
  | HTTPException (code : Z) (message : string)
  | KeyError (key : string).

Inductive Res (A : Type) :=
  | Ret (a : A)
  | Raise (e : Exn).
Arguments Ret {A} a.
Arguments Raise {A} e.

(** A computation over the global [GROUPS]: it returns or raises, and leaves
    a store behind either way. *)
Definition M (A : Type) : Type := gmap string Group -> Res A * gmap string Group.

Definition ret {A : Type} (a : A) : M A := fun GROUPS => (Ret a, GROUPS).

Definition raise {A : Type} (e : Exn) : M A := fun GROUPS => (Raise e, GROUPS).

Definition bind {A B : Type} (m : M A) (k : A -> M B) : M B :=
  fun GROUPS =>
    match m GROUPS with
    | (Ret a, GROUPS') => k a GROUPS'
    | (Raise e, GROUPS') => (Raise e, GROUPS')
    end.

Definition lift {A : Type} (r : Res A) : M A := fun GROUPS => (r, GROUPS).

(** Reading the global. *)
Definition read_GROUPS : M (gmap string Group) := fun GROUPS => (Ret GROUPS, GROUPS).

(** [GROUPS[key]] *)
Definition getitem (key : string) : M Group :=
  fun GROUPS =>
    match GROUPS !! key with
    | Some group => (Ret group, GROUPS)
    | None => (Raise (KeyError key), GROUPS)
    end.

(** [GROUPS[key] = group] *)
Definition setitem (key : string) (group : Group) : M unit :=
  fun GROUPS => (Ret tt, <[key := group]> GROUPS).

(** [del GROUPS[key]] *)
Definition delitem (key : string) : M unit :=
  fun GROUPS =>
    match GROUPS !! key with
    | Some _ => (Ret tt, delete key GROUPS)
    | None => (Raise (KeyError key), GROUPS)
    end.

Declare Scope py_scope.
Delimit Scope py_scope with py.
Notation "x <- m ;; k" := (bind m (fun x => k))
  (at level 100, m at next level, right associativity) : py_scope.
Notation "m ;; k" := (bind m (fun _ => k))
  (at level 100, right associativity) : py_scope.
Local Open Scope py_scope.

(** ** Request parsing (flask_restful.reqparse) *)

(** What the request holds for one argument: nothing, a value the argument's
    [type] rejects, or a value it converts. *)
Inductive Field (A : Type) :=
  | Missing
  | Unconvertible
  | Given (a : A).
Arguments Missing {A}.
Arguments Unconvertible {A}.
Arguments Given {A} a.

(** The body of a POST or PUT request, as far as the two parsers look at it
    (a JSON [null] is not modelled). *)
Record Request := { body_name : Field string; body_memsize : Field float }.

(** A validation failure aborts with status 400; the message is keyed by the
    argument's name, its wording is not modelled. *)
Definition validation_error {A : Type} (arg : string) : Res A :=
  Raise (HTTPException 400 arg).

(** [parser.add_argument(arg)]: [None] when the request has no such field. *)
Definition parse_optional {A : Type} (arg : string) (v : Field A) : Res (option A) :=
  match v with
  | Given a => Ret (Some a)
  | Unconvertible => validation_error arg
  | Missing => Ret None
  end.

(** [parser.add_argument(arg, required=True)]: the field has to be there;
    whatever converts is accepted. *)
Definition parse_required {A : Type} (arg : string) (v : Field A) : Res A :=
  match v with
  | Given a => Ret a
  | Unconvertible => validation_error arg
  | Missing => validation_error arg
  end.

(** [parser.add_argument(arg, default=d)] *)
Definition parse_default {A : Type} (arg : string) (d : A) (v : Field A) : Res A :=
  match v with
  | Given a => Ret a
  | Unconvertible => validation_error arg
  | Missing => Ret d
  end.

(** ** The handlers *)

(** What a handler returns: a body and a status code (200 when the handler
    gives none). *)
Inductive Body :=
  | EmptyBody
  | GroupBody (group : Group)
  | GroupsBody (groups : gmap string Group).

Definition Response : Type := Body * Z.

Definition not_found_message (group_id : string) : string :=
  "group " +:+ group_id +:+ " doesn't exist".

Definition abort_if_group_doesnt_exist (group_id : string) : M unit :=
  GROUPS <- read_GROUPS ;;
  if decide (group_id ∉ dom GROUPS)
  then raise (HTTPException 404 (not_found_message group_id))
  else ret tt.

Definition Group_get (group_id : string) : M Response :=
  abort_if_group_doesnt_exist group_id ;;
  group <- getitem group_id ;;
  ret (GroupBody group, 200%Z).

Definition Group_delete (group_id : string) : M Response :=
  abort_if_group_doesnt_exist group_id ;;
  delitem group_id ;;
  ret (EmptyBody, 204%Z).

Definition Group_put (group_id : string) (request : Request) : M Response :=
  args_name <- lift (parse_optional "name" (body_name request)) ;;
  args_memsize <- lift (parse_default "memsize" float_0_5 (body_memsize request)) ;;
  group <- getitem group_id ;;
  let group :=
    match args_name with
    | Some n =>
        if str_truthy n
        then {| g_name := n; g_id := g_id group; g_memsize := g_memsize group;
                g_type := g_type group; g_state := g_state group;
                g_instances := g_instances group |}
        else group
    | None => group
    end in
  let group :=
    if float_truthy args_memsize
    then {| g_name := g_name group; g_id := g_id group; g_memsize := args_memsize;
            g_type := g_type group; g_state := g_state group;
            g_instances := g_instances group |}
    else group in
  setitem group_id group ;;
  ret (GroupBody group, 201%Z).

(** [uuid.uuid4().hex] is an input of the model: [group_id]. *)
Definition create_group (group_id : string) (name : string) (memsize : float) : M Group :=
  GROUPS <- read_GROUPS ;;
  let ip1 := allocate_ip GROUPS [] in
  let ip2 := allocate_ip GROUPS [ip1] in
  ret {| g_name := name;
         g_id := group_id;
         g_memsize := memsize;
         g_type := "memcached";
         g_state := {| s_id := "1"; s_name := "OK"; s_type := "passing" |};
         g_instances :=
           [ {| i_id := group_id +:+ "_1"; i_name := "1"; i_addr := ip1; i_host := "localhost" |};
             {| i_id := group_id +:+ "_2"; i_name := "2"; i_addr := ip2; i_host := "localhost" |} ] |}.

Definition GroupList_get : M Response :=
  GROUPS <- read_GROUPS ;;
  ret (GroupsBody GROUPS, 200%Z).

Definition GroupList_post (uuid : string) (request : Request) : M Response :=
  args_name <- lift (parse_required "name" (body_name request)) ;;
  args_memsize <- lift (parse_default "memsize" float_0_5 (body_memsize request)) ;;
  group <- create_group uuid args_name args_memsize ;;
  setitem (g_id group) group ;;
  ret (GroupBody group, 201%Z).

(** The module body: two groups are created and stored before the server
    starts. *)
Definition bootstrap (uuid1 uuid2 : string) : M unit :=
  group1 <- create_group uuid1 "memcached for Bob" float_0_5 ;;
  setitem (g_id group1) group1 ;;
  group2 <- create_group uuid2 "memcached for Alice" float_1_2 ;;
  setitem (g_id group2) group2.

(** The store the server starts with. *)
Definition seeded (uuid1 uuid2 : string) : gmap string Group :=
  snd (bootstrap uuid1 uuid2 ∅).

(** ** Requests in sequence *)

Inductive Op :=
  | POST (uuid : string) (request : Request)
  | GET (group_id : string)
  | PUT (group_id : string) (request : Request)
  | DELETE (group_id : string)
  | LIST.

Definition handle (op : Op) : M Response :=
  match op with
  | POST uuid request => GroupList_post uuid request
  | GET group_id => Group_get group_id
  | PUT group_id request => Group_put group_id request
  | DELETE group_id => Group_delete group_id
  | LIST => GroupList_get
  end.

(** The store after one request, and after a list of them. *)
Definition step (GROUPS : gmap string Group) (op : Op) : gmap string Group :=
  snd (handle op GROUPS).

Definition run (GROUPS : gmap string Group) (ops : list Op) : gmap string Group :=
  foldl step GROUPS ops.

(** * The vocabulary of the properties *)

(** An address text is recorded when some instance of some stored group
    carries it. *)
Definition recorded (GROUPS : gmap string Group) (v : option string) : Prop :=
  ∃ key group instance,
    GROUPS !! key = Some group ∧ instance ∈ g_instances group ∧ i_addr instance = v.

(** Whether the character [c] occurs in [s]. *)
Fixpoint occurs (c : ascii) (s : string) : bool :=
  match s with
  | EmptyString => false
  | String c' r => if decide (c' = c) then true else occurs c r
  end.

(** Both facts about the text of an octet, checked on all 256 of them. *)
Definition octet_ok (n : N) : bool :=
  negb (occurs "."%char (ipaddress.str_octet n))
  && match ipaddress.int (ipaddress.str_octet n) with
     | Some m => (m =? n)%N
     | None => false
     end.

(** The addresses of 172.20.0.0/16: from 172.20.0.0, the integer 2886991872,
    up to 172.20.255.255. *)
Definition in_subnet (a : N) : Prop := (2886991872 ≤ a < 2886991872 + 65536)%N.

(** An address cannot be handed out when it is the network address, when some
    stored instance records its text, or when the caller excludes its text. *)
Definition unavailable (GROUPS : gmap string Group) (skip : list (option string)) (a : N) : Prop :=
  a = ipaddress.network_address net
  ∨ recorded GROUPS (Some (ipaddress.str a))
  ∨ Some (ipaddress.str a) ∈ skip.

(** The uuids used in the examples. *)
Definition uuid_a : string := "0f8fad5bd9cb469fa16570867728950e".
Definition uuid_b : string := "7c9e6679742540de944be07fc1f90ae7".
Definition uuid_c : string := "e902893a9d223c7ea7b8d6e313b71d9f".

(** The dictionary [create_group] builds. *)
Definition new_group (GROUPS : gmap string Group) (group_id name : string) (memsize : float)
  : Group :=
  let ip1 := allocate_ip GROUPS [] in
  let ip2 := allocate_ip GROUPS [ip1] in
  {| g_name := name;
     g_id := group_id;
     g_memsize := memsize;
     g_type := "memcached";
     g_state := {| s_id := "1"; s_name := "OK"; s_type := "passing" |};
     g_instances :=
       [ {| i_id := group_id +:+ "_1"; i_name := "1"; i_addr := ip1; i_host := "localhost" |};
         {| i_id := group_id +:+ "_2"; i_name := "2"; i_addr := ip2; i_host := "localhost" |} ] |}.

(** The creation parser accepts a body when [name] is there and converts and
    [memsize] is absent or converts. *)
Definition accepted (request : Request) : bool :=
  match body_name request, body_memsize request with
  | Given _, (Missing | Given _) => true
  | _, _ => false
  end.

(** C7 as the specification words it: a creation whose [name] is missing or
    empty aborts with status 400. *)
Definition post_rejects_missing_or_empty_name
    (GROUPS : gmap string Group) (uuid : string) (ms : Field float) : Prop :=
  ∀ nm, nm = Missing ∨ nm = Given "" →
    ∃ message,
      fst (GroupList_post uuid {| body_name := nm; body_memsize := ms |} GROUPS)
      = Raise (HTTPException 400 message).

(** The fields no handler assigns after creation. *)
Definition same_identity (group group' : Group) : Prop :=
  g_id group' = g_id group ∧ g_type group' = g_type group
  ∧ g_state group' = g_state group ∧ g_instances group' = g_instances group.

(** [uuid4] returns an identifier no stored group has. *)
Definition fresh_uuid (GROUPS : gmap string Group) (op : Op) : Prop :=
  match op with
  | POST uuid _ => GROUPS !! uuid = None
  | _ => True
  end.

(** An address is free when it lies in the subnet, is not the network
    address and is recorded on no instance of the store. *)
Definition free (GROUPS : gmap string Group) (a : N) : Prop :=
  in_subnet a ∧ ¬ unavailable GROUPS [] a.

(** The allocator is not exhausted by one creation: two addresses are free. *)
Definition two_free (GROUPS : gmap string Group) : Prop :=
  ∃ a b, a ≠ b ∧ free GROUPS a ∧ free GROUPS b.

(** Two addresses are free, decided by running the allocator twice. *)
Definition two_free_b (GROUPS : gmap string Group) : bool :=
  match allocate_ip GROUPS [] with
  | Some ip1 =>
      match allocate_ip GROUPS [Some ip1] with
      | Some _ => true
      | None => false
      end
  | None => false
  end.

(** C5 as the specification words it: whenever a creation succeeds, the group
    has two instances with the ids [{group_id}_1] and [{group_id}_2], whose
    [addr] values are distinct texts of subnet addresses other than the
    network address. *)
Definition creation_gives_two_subnet_addresses
    (GROUPS : gmap string Group) (uuid : string) (request : Request) : Prop :=
  ∀ group status GROUPS',
    GroupList_post uuid request GROUPS = (Ret (GroupBody group, status), GROUPS') →
    ∃ i1 i2 a1 a2,
      g_instances group = [i1; i2]
      ∧ i_id i1 = g_id group +:+ "_1" ∧ i_id i2 = g_id group +:+ "_2"
      ∧ i_addr i1 = Some (ipaddress.str a1) ∧ i_addr i2 = Some (ipaddress.str a2)
      ∧ i_addr i1 ≠ i_addr i2
      ∧ in_subnet a1 ∧ in_subnet a2
      ∧ a1 ≠ ipaddress.network_address net ∧ a2 ≠ ipaddress.network_address net.

(** No two instance records of the store, in the same group or in different
    ones, have the same [addr]. *)
Definition addr_unique (GROUPS : gmap string Group) : Prop :=
  ∀ key1 group1 n1 instance1 key2 group2 n2 instance2,
    GROUPS !! key1 = Some group1 → g_instances group1 !! n1 = Some instance1 →
    GROUPS !! key2 = Some group2 → g_instances group2 !! n2 = Some instance2 →
    i_addr instance1 = i_addr instance2 →
    key1 = key2 ∧ n1 = n2.

(** The allocator is never exhausted along a list of requests: each creation
    that gets past its parser finds two free addresses. *)
Fixpoint no_exhaustion (GROUPS : gmap string Group) (ops : list Op) : Prop :=
  match ops with
  | [] => True
  | op :: ops' =>
      match op with
      | POST _ request => accepted request = true → two_free GROUPS
      | _ => True
      end
      ∧ no_exhaustion (step GROUPS op) ops'
  end.

(** The store records exactly the [m] lowest addresses after the network
    address. *)
Definition dense (GROUPS : gmap string Group) (m : N) : Prop :=
  ∀ v, recorded GROUPS v
       ↔ ∃ i, (1 ≤ i ≤ m)%N ∧ v = Some (ipaddress.str (2886991872 + i)).

(** Uuids for a run of creations: 27 fixed digits and a counter of five. *)
Definition counter_text (k : N) : string :=
  String (ipaddress.digit (k / 10000 mod 10))
    (String (ipaddress.digit (k / 1000 mod 10))
       (String (ipaddress.digit (k / 100 mod 10))
          (String (ipaddress.digit (k / 10 mod 10))
             (String (ipaddress.digit (k mod 10)) EmptyString)))).

Definition uuid_of (k : N) : string := "000000000000400080000000000" +:+ counter_text k.

(** The creation request used to fill the subnet. *)
Definition filler : Request := {| body_name := Given "X"; body_memsize := Missing |}.

Definition creations (ks : list N) : list Op := (fun k => POST (uuid_of k) filler) <$> ks.

(** After [s] creations with the uuids of the counters below [s], the store
    records the [2 * s] lowest addresses. *)
Definition packed (GROUPS : gmap string Group) (s : N) : Prop :=
  dense GROUPS (2 * s)
  ∧ ∀ key, is_Some (GROUPS !! key) → ∃ j, (j < s)%N ∧ key = uuid_of j.

(** The seeded store of a server after 32765 further creations: 32767 groups
    hold 65534 of the 65535 addresses that can be handed out. *)
Definition nearly_full : gmap string Group :=
  run (seeded (uuid_of 0) (uuid_of 1)) (creations (ipaddress.range 2 (N.to_nat 32765))).

(** * The rest of the service *)

(** [StateList.get]: the three health states, keyed by their ids, with the
    default status 200; the store is not looked at. *)
Definition StateList_get : M (gmap string State * Z) :=
  ret (<["1" := {| s_id := "1"; s_name := "OK"; s_type := "passing" |}]>
         (<["2" := {| s_id := "2"; s_name := "Degraded"; s_type := "warning" |}]>
            (<["3" := {| s_id := "3"; s_name := "Down"; s_type := "critical" |}]> ∅)),
       200%Z).

(** The group an update stores for a stored [group], from what the parser
    returned for the two fields. *)
Definition updated (group : Group) (nm : Field string) (ms : Field float) : Group :=
  {| g_name := match nm with
               | Given n => if str_truthy n then n else g_name group
               | _ => g_name group
               end;
     g_id := g_id group;
     g_memsize := match ms with
                  | Given m => if float_truthy m then m else g_memsize group
                  | _ => float_0_5
                  end;
     g_type := g_type group;
     g_state := g_state group;
     g_instances := g_instances group |}.

(** What [create_group] gives a group stored under [key], its name, memsize
    and addresses apart. *)
Definition well_formed (key : string) (group : Group) : Prop :=
  g_id group = key
  ∧ g_type group = "memcached"
  ∧ g_state group = {| s_id := "1"; s_name := "OK"; s_type := "passing" |}
  ∧ ∃ addr1 addr2,
      g_instances group
      = [ {| i_id := key +:+ "_1"; i_name := "1"; i_addr := addr1; i_host := "localhost" |};
          {| i_id := key +:+ "_2"; i_name := "2"; i_addr := addr2; i_host := "localhost" |} ].

Definition store_well_formed (GROUPS : gmap string Group) : Prop :=
  ∀ key group, GROUPS !! key = Some group → well_formed key group.

(** Every recorded [addr] is [None] or the text of a subnet address other
    than the network address. *)
Definition addrs_in_subnet (GROUPS : gmap string Group) : Prop :=
  ∀ v, recorded GROUPS v →
       v = None
       ∨ ∃ a, v = Some (ipaddress.str a) ∧ in_subnet a ∧ a ≠ ipaddress.network_address net.

(** No address text is on two instance records. *)
Definition text_unique (GROUPS : gmap string Group) : Prop :=
  ∀ key1 group1 n1 instance1 key2 group2 n2 instance2,
    GROUPS !! key1 = Some group1 → g_instances group1 !! n1 = Some instance1 →
    GROUPS !! key2 = Some group2 → g_instances group2 !! n2 = Some instance2 →
    i_addr instance1 = i_addr instance2 →
    is_Some (i_addr instance1) →
    key1 = key2 ∧ n1 = n2.



(** The store one creation after [nearly_full]: the last address is taken. *)
Definition full : gmap string Group := step nearly_full (POST (uuid_of 32767) filler).

(** The texts of the addresses that can be handed out: 172.20.0.1 up to
    172.20.255.255. *)
Definition host_texts : gset (option string) :=
  list_to_set ((fun a => Some (ipaddress.str a)) <$> ipaddress.range 2886991873 (N.to_nat 65535)).

(** * Properties *)

(** ** Sets and the allocated addresses *)

Lemma elem_of_set_add {K : Type} `{!EqDecision K, !Countable K} (x y : K) (s : gset K) :
  y ∈ set_add x s ↔ y = x ∨ y ∈ s.
Proof.
  destruct s as [m]. unfold set_add, elem_of, gset_elem_of, mapset_elem_of. simpl.
  destruct (decide (x = y)) as [->|Hne].
  - rewrite lookup_insert_eq. split; [by left|done].
  - rewrite lookup_insert_ne by done. split; [by right|]. intros [?|?]; [congruence|done].
Qed.

Lemma set_add_union {K : Type} `{!EqDecision K, !Countable K} (x : K) (s : gset K) :
  set_add x s = s ∪ {[x]}.
Proof.
  apply set_eq. intros y. rewrite elem_of_set_add, elem_of_union, elem_of_singleton. tauto.
Qed.

Lemma elem_of_add_instances (v : option string) (l : list Instance) (acc : gset (option string)) :
  v ∈ foldl (fun acc instance => set_add (i_addr instance) acc) acc l
  ↔ v ∈ acc ∨ ∃ instance, instance ∈ l ∧ i_addr instance = v.
Proof.
  revert acc. induction l as [|i l IH]; intros acc; simpl.
  - split; [by left|]. intros [?|(i & Hi & _)]; [done|]. by apply elem_of_nil in Hi.
  - rewrite IH, elem_of_set_add. split.
    + intros [[->|?]|(j & ? & ?)].
      * right. exists i. split; [left|done].
      * by left.
      * right. exists j. split; [by right|done].
    + intros [?|(j & Hj & ?)]; [by left; right|].
      apply elem_of_cons in Hj as [->|?]; [by left; left|].
      right. by exists j.
Qed.

Lemma network_text : hd EmptyString (split "/"%char ALLOC_SUBNET) = "172.20.0.0".
Proof. reflexivity. Qed.

Lemma elem_of_allocated_ips (GROUPS : gmap string Group) (v : option string) :
  v ∈ allocated_ips GROUPS ↔ v = Some "172.20.0.0" ∨ recorded GROUPS v.
Proof.
  unfold allocated_ips. rewrite network_text. revert v.
  apply (map_fold_weak_ind
    (fun r (m : gmap string Group) => ∀ v, v ∈ r ↔ v = Some "172.20.0.0" ∨ recorded m v)).
  - intros v. rewrite elem_of_singleton. split; [by left|].
    intros [?|(k & g & i & Hk & _)]; [done|]. by rewrite lookup_empty in Hk.
  - intros k g m r Hk IH v. rewrite elem_of_add_instances, IH. split.
    + intros [[?|(k' & g' & i & Hk' & ? & ?)]|(i & ? & ?)].
      * by left.
      * right. exists k', g', i. split; [|done].
        rewrite lookup_insert_ne; [done|]. intros ->. congruence.
      * right. exists k, g, i. by rewrite lookup_insert_eq.
    + intros [?|(k' & g' & i & Hk' & ? & ?)]; [by left; left|].
      destruct (decide (k = k')) as [->|Hne].
      * rewrite lookup_insert_eq in Hk'. simplify_eq. right. by exists i.
      * rewrite lookup_insert_ne in Hk' by done. left. right. by exists k', g', i.
Qed.

(** ** The addresses of the subnet *)

Lemma net_eq :
  net = {| ipaddress.network_address := 2886991872; ipaddress.prefixlen := 16 |}.
Proof. reflexivity. Qed.

Lemma elem_of_range (a s : N) (count : nat) :
  a ∈ ipaddress.range s count ↔ (s ≤ a < s + N.of_nat count)%N.
Proof.
  revert s. induction count as [|count IH]; intros s; simpl ipaddress.range.
  - rewrite elem_of_nil. lia.
  - rewrite elem_of_cons, IH. lia.
Qed.

Lemma range_sorted (s : N) (count : nat) : StronglySorted N.lt (ipaddress.range s count).
Proof.
  revert s. induction count as [|count IH]; intros s; simpl; constructor; [apply IH|].
  apply Forall_forall. intros a Ha%elem_of_range. lia.
Qed.

(** The loop stops at the lowest address whose text is not excepted. *)
Lemma first_not_in_range (X : gset (option string)) (s : N) (count : nat) :
  match first_not_in X (ipaddress.range s count) with
  | Some r =>
      ∃ k, (k < N.of_nat count)%N ∧ r = ipaddress.str (s + k) ∧ (Some r ∉ X)
           ∧ ∀ j, (j < k)%N → Some (ipaddress.str (s + j)) ∈ X
  | None => ∀ j, (j < N.of_nat count)%N → Some (ipaddress.str (s + j)) ∈ X
  end.
Proof.
  revert s. induction count as [|count IH]; intros s; simpl.
  - intros j Hj. lia.
  - destruct (decide (Some (ipaddress.str s) ∉ X)) as [Hs|Hs].
    + exists 0%N. rewrite N.add_0_r. split_and!; [lia|done|done|]. intros j Hj. lia.
    + apply dec_stable in Hs. specialize (IH (N.succ s)).
      destruct (first_not_in X (ipaddress.range (N.succ s) count)) as [r|].
      * destruct IH as (k & Hk & -> & Hr & Hlow). exists (N.succ k).
        split_and!; [lia|f_equal; lia|by replace (s + N.succ k)%N with (N.succ s + k)%N by lia|].
        intros j Hj. destruct (decide (j = 0%N)) as [->|Hj0]; [by rewrite N.add_0_r|].
        replace (s + j)%N with (N.succ s + N.pred j)%N by lia. apply Hlow. lia.
      * intros j Hj. destruct (decide (j = 0%N)) as [->|Hj0]; [by rewrite N.add_0_r|].
        replace (s + j)%N with (N.succ s + N.pred j)%N by lia. apply IH. lia.
Qed.

(** ** Address texts: [ip_address (str a) = a] *)

Lemma split_without_sep (sep : ascii) (s : string) :
  occurs sep s = false → split sep s = [s].
Proof.
  induction s as [|c s IH]; simpl; [done|].
  destruct (decide (c = sep)); [done|]. intros Hs. by rewrite IH.
Qed.

Lemma split_app (sep : ascii) (s r : string) :
  occurs sep s = false → split sep (s +:+ String sep r) = s :: split sep r.
Proof.
  induction s as [|c s IH]; simpl.
  - intros _. by rewrite decide_True.
  - destruct (decide (c = sep)); [done|]. intros Hs. by rewrite IH.
Qed.

Lemma octets_ok : forallb octet_ok (ipaddress.range 0 256) = true.
Proof. vm_compute. reflexivity. Qed.

Lemma str_octet_spec (n : N) :
  (n < 256)%N →
  occurs "."%char (ipaddress.str_octet n) = false
  ∧ ipaddress.int (ipaddress.str_octet n) = Some n.
Proof.
  intros Hn. pose proof octets_ok as Hall. rewrite forallb_forall in Hall.
  assert (Hin : n ∈ ipaddress.range 0 256) by (apply elem_of_range; lia).
  apply list_elem_of_In, Hall in Hin. unfold octet_ok in Hin.
  apply andb_prop in Hin as [Hdot Hint]. split.
  - by destruct (occurs _ _).
  - destruct (ipaddress.int _) as [m|]; [|done]. apply N.eqb_eq in Hint. by subst.
Qed.

Lemma ip_address_str (a : N) :
  (a < 4294967296)%N → ipaddress.ip_address (ipaddress.str a) = Some a.
Proof.
  intros Ha. unfold ipaddress.ip_address, ipaddress.str.
  set (l := split _ _).
  assert (H3 : (a / 16777216 mod 256 < 256)%N) by (apply N.mod_lt; lia).
  assert (H2 : (a / 65536 mod 256 < 256)%N) by (apply N.mod_lt; lia).
  assert (H1 : (a / 256 mod 256 < 256)%N) by (apply N.mod_lt; lia).
  assert (H0 : (a mod 256 < 256)%N) by (apply N.mod_lt; lia).
  destruct (str_octet_spec _ H3) as [D3 I3], (str_octet_spec _ H2) as [D2 I2],
    (str_octet_spec _ H1) as [D1 I1], (str_octet_spec _ H0) as [D0 I0].
  change l with (split "."%char (ipaddress.str_octet (a / 16777216 mod 256)
            +:+ String "."%char (ipaddress.str_octet (a / 65536 mod 256)
            +:+ String "."%char (ipaddress.str_octet (a / 256 mod 256)
            +:+ String "."%char (ipaddress.str_octet (a mod 256)))))).
  clear l.
  rewrite !split_app, split_without_sep by done.
  simpl fmap. rewrite I3, I2, I1, I0.
  assert (Hle : forallb (fun o => (o <=? 255)%N)
            [(a / 16777216 mod 256)%N; (a / 65536 mod 256)%N; (a / 256 mod 256)%N; (a mod 256)%N]
          = true).
  { simpl. rewrite !andb_true_iff, !N.leb_le. lia. }
  rewrite Hle. f_equal.
  clear -Ha. zify. Z.to_euclidean_division_equations. lia.
Qed.

Lemma str_inj (a b : N) :
  (a < 4294967296)%N → (b < 4294967296)%N → ipaddress.str a = ipaddress.str b → a = b.
Proof.
  intros Ha Hb Hab. apply ip_address_str in Ha, Hb. rewrite Hab in Ha. congruence.
Qed.

(** ** What the allocator returns *)

Lemma elem_of_addresses (a : N) : a ∈ ipaddress.addresses net ↔ in_subnet a.
Proof.
  rewrite net_eq. unfold ipaddress.addresses, in_subnet.
  rewrite elem_of_range. simpl ipaddress.network_address.
  change (N.of_nat _) with 65536%N. done.
Qed.

Lemma addresses_sorted : StronglySorted N.lt (ipaddress.addresses net).
Proof. apply range_sorted. Qed.

Lemma in_subnet_lt (a : N) : in_subnet a → (a < 4294967296)%N.
Proof. unfold in_subnet. lia. Qed.

Lemma except_list_unavailable GROUPS skip (a : N) :
  in_subnet a →
  Some (ipaddress.str a) ∈ allocated_ips GROUPS ∪ list_to_set skip ↔ unavailable GROUPS skip a.
Proof.
  intros Ha. unfold unavailable.
  rewrite elem_of_union, elem_of_allocated_ips, elem_of_list_to_set, net_eq.
  simpl ipaddress.network_address.
  assert (Some (ipaddress.str a) = Some "172.20.0.0" ↔ a = 2886991872%N) as ->; [|tauto].
  split; [|by intros ->]. intros [= Heq].
  apply str_inj; [by apply in_subnet_lt|lia|done].
Qed.

Lemma allocate_ip_spec GROUPS skip :
  match allocate_ip GROUPS skip with
  | Some r =>
      ∃ a, in_subnet a ∧ r = ipaddress.str a ∧ ¬ unavailable GROUPS skip a
           ∧ ∀ b, in_subnet b → (b < a)%N → unavailable GROUPS skip b
  | None => ∀ a, in_subnet a → unavailable GROUPS skip a
  end.
Proof.
  unfold allocate_ip, ipaddress.addresses. rewrite net_eq.
  simpl ipaddress.network_address.
  pose proof (first_not_in_range (allocated_ips GROUPS ∪ list_to_set skip) 2886991872
                (N.to_nat (ipaddress.num_addresses
                   {| ipaddress.network_address := 2886991872; ipaddress.prefixlen := 16 |})))
    as Hscan.
  destruct (first_not_in _ _) as [r|].
  - destruct Hscan as (k & Hk & -> & Hfree & Hlow).
    change (N.of_nat _) with 65536%N in Hk.
    assert (Hin : in_subnet (2886991872 + k)) by (unfold in_subnet; lia).
    exists (2886991872 + k)%N. split_and!; [done|done| |].
    + by rewrite <- except_list_unavailable.
    + intros b Hb Hlt. apply except_list_unavailable; [done|].
      replace b with (2886991872 + (b - 2886991872))%N by (unfold in_subnet in Hb; lia).
      apply Hlow. unfold in_subnet in Hb. lia.
  - intros a Ha. apply except_list_unavailable; [done|].
    replace a with (2886991872 + (a - 2886991872))%N by (unfold in_subnet in Ha; lia).
    apply Hscan. change (N.of_nat _) with 65536%N. unfold in_subnet in Ha. lia.
Qed.

(** The allocator finds an address whenever one can be handed out. *)
Lemma allocate_ip_is_Some GROUPS skip (a : N) :
  in_subnet a → ¬ unavailable GROUPS skip a → is_Some (allocate_ip GROUPS skip).
Proof.
  intros Ha Hfree. pose proof (allocate_ip_spec GROUPS skip) as Hspec.
  destruct (allocate_ip GROUPS skip) as [r|]; [by eexists|].
  by destruct Hfree; apply Hspec.
Qed.

(** C4: the allocator visits the addresses of 172.20.0.0/16 in ascending
    numeric order and returns the text of the first one that is neither the
    network address, nor recorded on an instance of the store, nor in the
    exclusion list; it returns nothing exactly when every address of the
    subnet is unavailable. *)
Theorem allocate_ip_first_free :
  StronglySorted N.lt (ipaddress.addresses net)
  ∧ (∀ a, a ∈ ipaddress.addresses net ↔ in_subnet a)
  ∧ ∀ GROUPS skip,
      allocate_ip GROUPS skip
        = first_not_in (allocated_ips GROUPS ∪ list_to_set skip) (ipaddress.addresses net)
      ∧ match allocate_ip GROUPS skip with
        | Some r =>
            ∃ a, in_subnet a ∧ r = ipaddress.str a ∧ ¬ unavailable GROUPS skip a
                 ∧ ∀ b, in_subnet b → (b < a)%N → unavailable GROUPS skip b
        | None => ∀ a, in_subnet a → unavailable GROUPS skip a
        end
      ∧ ((∀ a, in_subnet a → unavailable GROUPS skip a) → allocate_ip GROUPS skip = None).
Proof.
  split_and!; [apply addresses_sorted|apply elem_of_addresses|].
  intros GROUPS skip. split_and!; [done|apply allocate_ip_spec|].
  intros Hall. pose proof (allocate_ip_spec GROUPS skip) as Hspec.
  destruct (allocate_ip GROUPS skip) as [r|]; [|done].
  destruct Hspec as (a & Ha & _ & Hfree & _). destruct Hfree. by apply Hall.
Qed.

(** ** Reading and deleting *)

Lemma abort_if_group_doesnt_exist_unknown GROUPS group_id :
  GROUPS !! group_id = None →
  abort_if_group_doesnt_exist group_id GROUPS
  = (Raise (HTTPException 404 (not_found_message group_id)), GROUPS).
Proof.
  intros Hg. unfold abort_if_group_doesnt_exist, bind, read_GROUPS, raise.
  rewrite decide_True; [done|]. by apply not_elem_of_dom.
Qed.

Lemma abort_if_group_doesnt_exist_stored GROUPS group_id group :
  GROUPS !! group_id = Some group →
  abort_if_group_doesnt_exist group_id GROUPS = (Ret tt, GROUPS).
Proof.
  intros Hg. unfold abort_if_group_doesnt_exist, bind, read_GROUPS, ret.
  rewrite decide_False; [done|]. intros Hdom. apply Hdom, elem_of_dom. by eexists.
Qed.

Lemma Group_get_unknown GROUPS group_id :
  GROUPS !! group_id = None →
  Group_get group_id GROUPS = (Raise (HTTPException 404 (not_found_message group_id)), GROUPS).
Proof.
  intros Hg. unfold Group_get, bind at 1.
  by rewrite abort_if_group_doesnt_exist_unknown.
Qed.

Lemma Group_get_stored GROUPS group_id group :
  GROUPS !! group_id = Some group →
  Group_get group_id GROUPS = (Ret (GroupBody group, 200%Z), GROUPS).
Proof.
  intros Hg. unfold Group_get, bind at 1.
  rewrite (abort_if_group_doesnt_exist_stored _ _ group) by done.
  unfold bind, getitem, ret. by rewrite Hg.
Qed.

Lemma Group_delete_unknown GROUPS group_id :
  GROUPS !! group_id = None →
  Group_delete group_id GROUPS
  = (Raise (HTTPException 404 (not_found_message group_id)), GROUPS).
Proof.
  intros Hg. unfold Group_delete, bind at 1.
  by rewrite abort_if_group_doesnt_exist_unknown.
Qed.

Lemma Group_delete_stored GROUPS group_id group :
  GROUPS !! group_id = Some group →
  Group_delete group_id GROUPS = (Ret (EmptyBody, 204%Z), delete group_id GROUPS).
Proof.
  intros Hg. unfold Group_delete, bind at 1.
  rewrite (abort_if_group_doesnt_exist_stored _ _ group) by done.
  unfold bind, delitem, ret. by rewrite Hg.
Qed.

(** C8: deleting an unknown identifier aborts with 404, a message that
    contains the identifier, and the store as it was; deleting a stored one
    removes it and returns an empty body with status 204, after which reading
    the identifier aborts with 404. *)
Theorem delete_then_get GROUPS group_id :
  match GROUPS !! group_id with
  | None =>
      Group_delete group_id GROUPS
      = (Raise (HTTPException 404 ("group " +:+ group_id +:+ " doesn't exist")), GROUPS)
  | Some _ =>
      Group_delete group_id GROUPS = (Ret (EmptyBody, 204%Z), delete group_id GROUPS)
      ∧ delete group_id GROUPS !! group_id = None
      ∧ (∀ key, key ≠ group_id → delete group_id GROUPS !! key = GROUPS !! key)
      ∧ Group_get group_id (delete group_id GROUPS)
        = (Raise (HTTPException 404 ("group " +:+ group_id +:+ " doesn't exist")),
           delete group_id GROUPS)
  end.
Proof.
  destruct (GROUPS !! group_id) as [group|] eqn:Hg.
  - split_and!.
    + by apply (Group_delete_stored _ _ group).
    + apply lookup_delete_eq.
    + intros key Hkey. by apply lookup_delete_ne.
    + apply Group_get_unknown, lookup_delete_eq.
  - by apply Group_delete_unknown.
Qed.

(** ** The update handler *)

(** An update of a stored group whose body parses: the four fields the
    handler never assigns are kept, [name] is replaced by a non-empty given
    text, [memsize] by a non-zero given number or by the parser's default. *)
Lemma Group_put_stored GROUPS group_id group (nm : Field string) (ms : Field float) :
  GROUPS !! group_id = Some group →
  nm ≠ Unconvertible →
  ms ≠ Unconvertible →
  ∃ group',
    Group_put group_id {| body_name := nm; body_memsize := ms |} GROUPS
      = (Ret (GroupBody group', 201%Z), <[group_id := group']> GROUPS)
    ∧ g_id group' = g_id group ∧ g_type group' = g_type group
    ∧ g_state group' = g_state group ∧ g_instances group' = g_instances group
    ∧ g_name group' = match nm with
                      | Given n => if str_truthy n then n else g_name group
                      | _ => g_name group
                      end
    ∧ g_memsize group' = match ms with
                         | Given m => if float_truthy m then m else g_memsize group
                         | _ => float_0_5
                         end.
Proof.
  intros Hg Hnm Hms. unfold Group_put, bind, lift, getitem, setitem, ret. simpl.
  destruct nm as [| |n]; [|done|]; destruct ms as [| |m]; try done; simpl; rewrite Hg;
    try destruct (str_truthy n); try destruct (float_truthy m) eqn:Hm;
    eexists; split_and!; try reflexivity; simpl; by rewrite ?Hm.
Qed.

(** A body that does not parse aborts the update before the store is read. *)
Lemma Group_put_invalid_name GROUPS group_id (ms : Field float) :
  Group_put group_id {| body_name := Unconvertible; body_memsize := ms |} GROUPS
  = (Raise (HTTPException 400 "name"), GROUPS).
Proof. reflexivity. Qed.

Lemma Group_put_invalid_memsize GROUPS group_id (nm : Field string) :
  nm ≠ Unconvertible →
  Group_put group_id {| body_name := nm; body_memsize := Unconvertible |} GROUPS
  = (Raise (HTTPException 400 "memsize"), GROUPS).
Proof. by destruct nm. Qed.

(** With a body that parses, the subscript [GROUPS[group_id]] is what fails
    for an unknown identifier. *)
Lemma Group_put_unknown GROUPS group_id (request : Request) :
  GROUPS !! group_id = None →
  body_name request ≠ Unconvertible →
  body_memsize request ≠ Unconvertible →
  Group_put group_id request GROUPS = (Raise (KeyError group_id), GROUPS).
Proof.
  destruct request as [nm ms]. simpl. intros Hg Hnm Hms.
  unfold Group_put, bind, lift, getitem. simpl.
  destruct nm; [|done|]; destruct ms; try done; simpl; by rewrite Hg.
Qed.

Lemma seeded_lookup_b :
  ∃ group, seeded uuid_a uuid_b !! uuid_b = Some group ∧ g_memsize group = float_1_2.
Proof. vm_compute. eexists. split; reflexivity. Qed.

Lemma seeded_lookup_nosuch : seeded uuid_a uuid_b !! "nosuch" = None.
Proof. vm_compute. reflexivity. Qed.

(** C1, on the code: an update of the identifier "nosuch", which the seeded
    store does not hold, is no 404. The body is parsed first (an unusable
    [memsize] gives 400), then [GROUPS[group_id]] raises [KeyError]; the read
    handler answers 404 for the same identifier. The store is unchanged in
    all three cases. *)
Theorem put_unknown_id_raises_KeyError :
  let GROUPS := seeded uuid_a uuid_b in
  GROUPS !! "nosuch" = None
  ∧ Group_put "nosuch" {| body_name := Given "x"; body_memsize := Missing |} GROUPS
    = (Raise (KeyError "nosuch"), GROUPS)
  ∧ Group_put "nosuch" {| body_name := Given "x"; body_memsize := Unconvertible |} GROUPS
    = (Raise (HTTPException 400 "memsize"), GROUPS)
  ∧ Group_get "nosuch" GROUPS
    = (Raise (HTTPException 404 "group nosuch doesn't exist"), GROUPS).
Proof.
  intros GROUPS. pose proof seeded_lookup_nosuch as Hg. split_and!; [done| | |].
  - by apply Group_put_unknown.
  - by apply Group_put_invalid_memsize.
  - by apply Group_get_unknown.
Qed.

(** C2, on the code: the seeded group of Alice has [memsize] 1.2; after an
    update whose body holds only [name] it has [memsize] 0.5, the default of
    the update parser. *)
Theorem put_name_only_resets_memsize :
  let GROUPS := seeded uuid_a uuid_b in
  let GROUPS' :=
    snd (Group_put uuid_b {| body_name := Given "x"; body_memsize := Missing |} GROUPS) in
  g_memsize <$> GROUPS !! uuid_b = Some float_1_2
  ∧ g_memsize <$> GROUPS' !! uuid_b = Some float_0_5
  ∧ float_1_2 ≠ float_0_5.
Proof.
  destruct seeded_lookup_b as (group & Hg & Hm).
  destruct (Group_put_stored _ uuid_b group (Given "x") Missing Hg)
    as (group' & Hput & _ & _ & _ & _ & _ & Hm'); [discriminate..|].
  cbv zeta. rewrite Hput. cbn [snd]. rewrite lookup_insert_eq, Hg.
  cbn [fmap option_fmap option_map]. rewrite Hm, Hm'.
  split_and!; [reflexivity|reflexivity|discriminate].
Qed.

(** C6: an update of a stored group with [memsize] zero (of either sign)
    keeps the stored [memsize]; with any other [memsize] it stores that
    number. The update returns the updated group with status 201. *)
Theorem put_memsize_zero_or_not GROUPS group_id group (nm : Field string) (m : float) :
  GROUPS !! group_id = Some group →
  nm ≠ Unconvertible →
  ∃ group',
    Group_put group_id {| body_name := nm; body_memsize := Given m |} GROUPS
      = (Ret (GroupBody group', 201%Z), <[group_id := group']> GROUPS)
    ∧ ((∃ s, m = S754_zero s) → g_memsize group' = g_memsize group)
    ∧ ((∀ s, m ≠ S754_zero s) → g_memsize group' = m).
Proof.
  intros Hg Hnm.
  destruct (Group_put_stored GROUPS group_id group nm (Given m) Hg Hnm)
    as (group' & Hput & _ & _ & _ & _ & _ & Hm); [discriminate|].
  exists group'. split_and!; [done| |].
  - intros [s ->]. by rewrite Hm.
  - intros Hnz. rewrite Hm. destruct m; simpl; try done. by destruct (Hnz s).
Qed.

Lemma put_memsize_zero_or_not_witness :
  (∃ group',
     Group_put uuid_b {| body_name := Missing; body_memsize := Given (S754_zero false) |}
       (seeded uuid_a uuid_b)
       = (Ret (GroupBody group', 201%Z), <[uuid_b := group']> (seeded uuid_a uuid_b))
     ∧ g_memsize group' = float_1_2)
  ∧ (∃ group',
       Group_put uuid_b {| body_name := Missing; body_memsize := Given float_0_5 |}
         (seeded uuid_a uuid_b)
         = (Ret (GroupBody group', 201%Z), <[uuid_b := group']> (seeded uuid_a uuid_b))
       ∧ g_memsize group' = float_0_5).
Proof.
  destruct seeded_lookup_b as (group & Hg & Hm). split.
  - destruct (put_memsize_zero_or_not _ uuid_b group Missing (S754_zero false) Hg)
      as (group' & Hput & Hzero & _); [discriminate|].
    exists group'. split; [exact Hput|]. rewrite <- Hm. apply Hzero. by exists false.
  - destruct (put_memsize_zero_or_not _ uuid_b group Missing float_0_5 Hg)
      as (group' & Hput & _ & Hnz); [discriminate|].
    exists group'. split; [exact Hput|]. apply Hnz. discriminate.
Defined.

(** C10: an update of a stored group whose [name] is the empty string keeps
    the stored name, whatever the rest of the body; when the body parses the
    update returns the group, name unchanged, with status 201. *)
Theorem put_empty_name_keeps_name GROUPS group_id group (ms : Field float) :
  GROUPS !! group_id = Some group →
  let request := {| body_name := Given ""; body_memsize := ms |} in
  g_name <$> snd (Group_put group_id request GROUPS) !! group_id = Some (g_name group)
  ∧ (ms ≠ Unconvertible →
     ∃ group',
       Group_put group_id request GROUPS
         = (Ret (GroupBody group', 201%Z), <[group_id := group']> GROUPS)
       ∧ g_name group' = g_name group).
Proof.
  intros Hg request. subst request.
  assert (ms = Unconvertible ∨ ms ≠ Unconvertible) as [->|Hms]
    by (destruct ms; [right|left|right]; congruence).
  - rewrite Group_put_invalid_memsize by discriminate. simpl. rewrite Hg. by split.
  - destruct (Group_put_stored GROUPS group_id group (Given "") ms Hg)
      as (group' & Hput & _ & _ & _ & _ & Hn & _); [discriminate|done|].
    simpl in Hn. rewrite Hput. simpl. rewrite lookup_insert_eq. simpl. rewrite Hn.
    split; [done|]. intros _. by exists group'.
Qed.

Lemma put_empty_name_keeps_name_witness :
  g_name <$> snd (Group_put uuid_b {| body_name := Given ""; body_memsize := Missing |}
                    (seeded uuid_a uuid_b)) !! uuid_b
  = Some "memcached for Alice".
Proof.
  assert (Hg : ∃ group, seeded uuid_a uuid_b !! uuid_b = Some group
                        ∧ g_name group = "memcached for Alice").
  { vm_compute. eexists. split; reflexivity. }
  destruct Hg as (group & Hg & Hn).
  destruct (put_empty_name_keeps_name _ uuid_b group Missing Hg) as [Hkeep _].
  rewrite <- Hn. exact Hkeep.
Defined.

(** ** Creation *)

Lemma create_group_eq GROUPS group_id name memsize :
  create_group group_id name memsize GROUPS
  = (Ret (new_group GROUPS group_id name memsize), GROUPS).
Proof. reflexivity. Qed.

Lemma GroupList_post_accepted GROUPS uuid (n : string) (ms : Field float) :
  ms ≠ Unconvertible →
  let group := new_group GROUPS uuid n (match ms with Given m => m | _ => float_0_5 end) in
  GroupList_post uuid {| body_name := Given n; body_memsize := ms |} GROUPS
  = (Ret (GroupBody group, 201%Z), <[uuid := group]> GROUPS).
Proof. by destruct ms. Qed.

Lemma GroupList_post_rejected GROUPS uuid (request : Request) :
  accepted request = false →
  ∃ arg, GroupList_post uuid request GROUPS = (Raise (HTTPException 400 arg), GROUPS).
Proof.
  destruct request as [[| |n] [| |m]]; try discriminate; intros _; by eexists.
Qed.

Lemma GroupList_post_missing_name GROUPS uuid (ms : Field float) :
  GroupList_post uuid {| body_name := Missing; body_memsize := ms |} GROUPS
  = (Raise (HTTPException 400 "name"), GROUPS).
Proof. reflexivity. Qed.

(** The empty name is accepted: on the seeded store the creation returns a
    group named "" with status 201. *)
Lemma post_accepts_empty_name :
  ¬ post_rejects_missing_or_empty_name (seeded uuid_a uuid_b) uuid_c Missing.
Proof.
  intros Hclaim. destruct (Hclaim (Given "")) as [message Hpost]; [by right|].
  rewrite GroupList_post_accepted in Hpost by discriminate. discriminate Hpost.
Qed.

(** C7, amended: a creation whose [name] is missing aborts with status 400
    and leaves the store as it was; a creation with any [name] given, the
    empty one included, and no [memsize] stores under the new identifier, and
    returns with status 201, a group of that name with [memsize] 0.5. *)
Theorem post_name_required_memsize_default GROUPS uuid :
  (∀ ms, GroupList_post uuid {| body_name := Missing; body_memsize := ms |} GROUPS
         = (Raise (HTTPException 400 "name"), GROUPS))
  ∧ (∀ n, ∃ group,
       GroupList_post uuid {| body_name := Given n; body_memsize := Missing |} GROUPS
       = (Ret (GroupBody group, 201%Z), <[uuid := group]> GROUPS)
       ∧ g_name group = n ∧ g_id group = uuid ∧ g_memsize group = float_0_5).
Proof.
  split; [done|]. intros n. eexists. split; [by apply GroupList_post_accepted|done].
Qed.

(** ** One request at a time *)

Lemma step_GET GROUPS group_id : step GROUPS (GET group_id) = GROUPS.
Proof.
  unfold step. simpl. destruct (GROUPS !! group_id) as [group|] eqn:Hg.
  - by rewrite (Group_get_stored _ _ group).
  - by rewrite Group_get_unknown.
Qed.

Lemma step_LIST GROUPS : step GROUPS LIST = GROUPS.
Proof. reflexivity. Qed.

Lemma step_DELETE GROUPS group_id : step GROUPS (DELETE group_id) = delete group_id GROUPS.
Proof.
  unfold step. simpl. destruct (GROUPS !! group_id) as [group|] eqn:Hg.
  - by rewrite (Group_delete_stored _ _ group).
  - rewrite Group_delete_unknown by done. simpl. by rewrite delete_id.
Qed.

Lemma step_PUT GROUPS group_id request :
  step GROUPS (PUT group_id request) = GROUPS
  ∨ ∃ group group',
      GROUPS !! group_id = Some group ∧ same_identity group group'
      ∧ step GROUPS (PUT group_id request) = <[group_id := group']> GROUPS.
Proof.
  unfold step. simpl. destruct request as [nm ms].
  assert (nm = Unconvertible ∨ nm ≠ Unconvertible) as [->|Hnm]
    by (destruct nm; [right|left|right]; congruence); [by left|].
  assert (ms = Unconvertible ∨ ms ≠ Unconvertible) as [->|Hms]
    by (destruct ms; [right|left|right]; congruence).
  { left. by rewrite Group_put_invalid_memsize. }
  destruct (GROUPS !! group_id) as [group|] eqn:Hg.
  - destruct (Group_put_stored GROUPS group_id group nm ms Hg Hnm Hms)
      as (group' & Hput & ? & ? & ? & ? & _).
    right. exists group, group'. rewrite Hput. by repeat split.
  - left. by rewrite Group_put_unknown.
Qed.

Lemma step_POST GROUPS uuid request :
  if accepted request
  then ∃ n m, step GROUPS (POST uuid request) = <[uuid := new_group GROUPS uuid n m]> GROUPS
  else step GROUPS (POST uuid request) = GROUPS.
Proof.
  unfold step. simpl. destruct (accepted request) eqn:Hacc.
  - destruct request as [[| |n] ms]; try discriminate.
    exists n, (match ms with Given m => m | _ => float_0_5 end).
    rewrite GroupList_post_accepted; [done|]. by destruct ms.
  - by destruct (GroupList_post_rejected GROUPS uuid request Hacc) as [arg ->].
Qed.

(** C9: a stored group keeps its [id], [type], [state] and [instances] across
    every update, whatever the identifier and the body of the request, and
    the update never removes it; the same holds across every other operation
    short of the deletion of that group. *)
Theorem only_name_and_memsize_change GROUPS key group :
  GROUPS !! key = Some group →
  (∀ group_id request,
     ∃ group', step GROUPS (PUT group_id request) !! key = Some group'
               ∧ same_identity group group')
  ∧ (∀ op, fresh_uuid GROUPS op →
       (∃ group', step GROUPS op !! key = Some group' ∧ same_identity group group')
       ∨ (op = DELETE key ∧ step GROUPS op !! key = None)).
Proof.
  intros Hg.
  assert (Hput : ∀ group_id request,
            ∃ group', step GROUPS (PUT group_id request) !! key = Some group'
                      ∧ same_identity group group').
  { intros group_id request.
    destruct (step_PUT GROUPS group_id request) as [->|(g & g' & Hg' & Hsame & ->)].
    - by exists group.
    - destruct (decide (group_id = key)) as [->|Hne].
      + exists g'. rewrite lookup_insert_eq. split; [done|]. congruence.
      + exists group. by rewrite lookup_insert_ne. }
  split; [done|].
  intros op Hfresh. destruct op as [uuid request|group_id|group_id request|group_id|].
  - left. exists group. split; [|done]. simpl in Hfresh.
    pose proof (step_POST GROUPS uuid request) as Hstep.
    destruct (accepted request); [|by rewrite Hstep].
    destruct Hstep as (n & m & ->). rewrite lookup_insert_ne; [done|]. congruence.
  - left. exists group. by rewrite step_GET.
  - left. apply Hput.
  - rewrite step_DELETE. destruct (decide (group_id = key)) as [->|Hne].
    + right. by rewrite lookup_delete_eq.
    + left. exists group. by rewrite lookup_delete_ne.
  - left. exists group. by rewrite step_LIST.
Qed.

Lemma only_name_and_memsize_change_witness :
  ∃ group,
    seeded uuid_a uuid_b !! uuid_b = Some group
    ∧ ∃ group',
        step (seeded uuid_a uuid_b)
             (PUT uuid_b {| body_name := Given "x"; body_memsize := Given float_0_5 |})
          !! uuid_b = Some group'
        ∧ same_identity group group'.
Proof.
  eexists. split; [vm_compute; reflexivity|].
  eapply only_name_and_memsize_change. vm_compute. reflexivity.
Defined.

(** ** Two allocations in a row *)

Lemma unavailable_skip GROUPS (v : option string) (a : N) :
  unavailable GROUPS [v] a ↔ unavailable GROUPS [] a ∨ v = Some (ipaddress.str a).
Proof.
  unfold unavailable. rewrite list_elem_of_singleton, elem_of_nil. intuition congruence.
Qed.

Lemma allocate_ip_twice GROUPS :
  two_free GROUPS →
  ∃ a1 a2,
    allocate_ip GROUPS [] = Some (ipaddress.str a1)
    ∧ allocate_ip GROUPS [Some (ipaddress.str a1)] = Some (ipaddress.str a2)
    ∧ free GROUPS a1 ∧ free GROUPS a2 ∧ a1 ≠ a2
    ∧ ipaddress.str a1 ≠ ipaddress.str a2.
Proof.
  intros (a & b & Hab & [Ha Hfa] & [Hb Hfb]).
  pose proof (allocate_ip_spec GROUPS []) as Hfirst.
  destruct (allocate_ip_is_Some GROUPS [] a Ha Hfa) as [r1 Hr1]. rewrite Hr1 in Hfirst.
  destruct Hfirst as (a1 & Ha1 & -> & Hf1 & _).
  assert (∃ c, in_subnet c ∧ ¬ unavailable GROUPS [Some (ipaddress.str a1)] c)
    as (c & Hc & Hfc).
  { destruct (decide (a = a1)) as [->|Hne].
    - exists b. split; [done|]. rewrite unavailable_skip. intros [?|[= Heq]]; [done|].
      apply Hab. symmetry. by apply str_inj; [apply in_subnet_lt..|].
    - exists a. split; [done|]. rewrite unavailable_skip. intros [?|[= Heq]]; [done|].
      apply Hne. symmetry. by apply str_inj; [apply in_subnet_lt..|]. }
  pose proof (allocate_ip_spec GROUPS [Some (ipaddress.str a1)]) as Hsecond.
  destruct (allocate_ip_is_Some GROUPS _ c Hc Hfc) as [r2 Hr2]. rewrite Hr2 in Hsecond.
  destruct Hsecond as (a2 & Ha2 & -> & Hf2 & _).
  rewrite unavailable_skip in Hf2.
  exists a1, a2. split_and!; [done|done|done| |intros ->|intros Heq].
  - split; [done|]. intros ?. apply Hf2. by left.
  - apply Hf2. by right.
  - apply Hf2. right. by rewrite Heq.
Qed.

Lemma free_not_network GROUPS (a : N) :
  free GROUPS a → a ≠ ipaddress.network_address net ∧ ipaddress.str a ≠ "172.20.0.0".
Proof.
  intros [Ha Hfa]. assert (a ≠ ipaddress.network_address net) as Hnet.
  { intros ->. apply Hfa. by left. }
  split; [done|]. intros Heq. apply Hnet. rewrite net_eq. simpl.
  apply str_inj; [by apply in_subnet_lt|lia|done].
Qed.

Lemma free_not_recorded GROUPS (a : N) :
  free GROUPS a → ¬ recorded GROUPS (Some (ipaddress.str a)).
Proof. intros [_ Hfa] Hrec. apply Hfa. right. by left. Qed.

Lemma two_free_b_true GROUPS : two_free_b GROUPS = true → two_free GROUPS.
Proof.
  unfold two_free_b. intros Hb.
  pose proof (allocate_ip_spec GROUPS []) as Hfirst.
  destruct (allocate_ip GROUPS []) as [r1|]; [|done].
  destruct Hfirst as (a1 & Ha1 & -> & Hf1 & _).
  pose proof (allocate_ip_spec GROUPS [Some (ipaddress.str a1)]) as Hsecond.
  destruct (allocate_ip GROUPS [Some (ipaddress.str a1)]) as [r2|]; [|done].
  destruct Hsecond as (a2 & Ha2 & -> & Hf2 & _). rewrite unavailable_skip in Hf2.
  exists a1, a2. split_and!.
  - intros ->. apply Hf2. by right.
  - by split.
  - split; [done|]. intros ?. apply Hf2. by left.
Qed.

Lemma new_group_instances GROUPS uuid name memsize :
  two_free GROUPS →
  ∃ a1 a2,
    free GROUPS a1 ∧ free GROUPS a2 ∧ ipaddress.str a1 ≠ ipaddress.str a2
    ∧ g_instances (new_group GROUPS uuid name memsize)
      = [ {| i_id := uuid +:+ "_1"; i_name := "1";
             i_addr := Some (ipaddress.str a1); i_host := "localhost" |};
          {| i_id := uuid +:+ "_2"; i_name := "2";
             i_addr := Some (ipaddress.str a2); i_host := "localhost" |} ].
Proof.
  intros (a1 & a2 & H1 & H2 & Hf1 & Hf2 & _ & Hne)%allocate_ip_twice.
  exists a1, a2. split_and!; [done..|]. unfold new_group. simpl. by rewrite H1, H2.
Qed.

(** C5, amended: a creation succeeds exactly when its body is accepted, and
    every successful creation stores and returns, with status 201, a group
    with exactly two instances, with the ids [{group_id}_1] and
    [{group_id}_2]; when two addresses of the subnet are free, their [addr]
    values are distinct texts of addresses of 172.20.0.0/16, neither of them
    the network address 172.20.0.0 and neither recorded in the store
    before. *)
Theorem post_creates_two_instances GROUPS uuid request :
  if accepted request
  then
    ∃ group i1 i2,
      GroupList_post uuid request GROUPS
        = (Ret (GroupBody group, 201%Z), <[uuid := group]> GROUPS)
      ∧ g_id group = uuid
      ∧ g_instances group = [i1; i2]
      ∧ i_id i1 = g_id group +:+ "_1" ∧ i_id i2 = g_id group +:+ "_2"
      ∧ (two_free GROUPS →
         ∃ a1 a2,
           i_addr i1 = Some (ipaddress.str a1) ∧ i_addr i2 = Some (ipaddress.str a2)
           ∧ i_addr i1 ≠ i_addr i2
           ∧ in_subnet a1 ∧ in_subnet a2
           ∧ a1 ≠ ipaddress.network_address net ∧ a2 ≠ ipaddress.network_address net
           ∧ ipaddress.str a1 ≠ "172.20.0.0" ∧ ipaddress.str a2 ≠ "172.20.0.0"
           ∧ ¬ recorded GROUPS (i_addr i1) ∧ ¬ recorded GROUPS (i_addr i2))
  else ∃ arg, GroupList_post uuid request GROUPS = (Raise (HTTPException 400 arg), GROUPS).
Proof.
  destruct (accepted request) eqn:Hacc; [|by apply GroupList_post_rejected].
  destruct request as [[| |n] ms]; [done..|].
  assert (ms ≠ Unconvertible) as Hms by (by intros ->).
  eexists _, _, _. split_and!; [by apply GroupList_post_accepted|reflexivity..|]. simpl.
  intros (a1 & a2 & H1 & H2 & Hf1 & Hf2 & _ & Hne)%allocate_ip_twice.
  exists a1, a2. rewrite H1, H2.
  destruct (free_not_network _ _ Hf1), (free_not_network _ _ Hf2).
  split_and!; [done|done|congruence|apply Hf1|apply Hf2|done..| |];
    by apply free_not_recorded.
Qed.

Lemma post_creates_two_instances_witness :
  ∃ group i1 i2 a1 a2,
    GroupList_post uuid_c {| body_name := Given "X"; body_memsize := Missing |}
      (seeded uuid_a uuid_b)
      = (Ret (GroupBody group, 201%Z), <[uuid_c := group]> (seeded uuid_a uuid_b))
    ∧ g_instances group = [i1; i2]
    ∧ i_id i1 = g_id group +:+ "_1" ∧ i_id i2 = g_id group +:+ "_2"
    ∧ i_addr i1 = Some (ipaddress.str a1) ∧ i_addr i2 = Some (ipaddress.str a2)
    ∧ i_addr i1 ≠ i_addr i2 ∧ in_subnet a1 ∧ in_subnet a2.
Proof.
  destruct (post_creates_two_instances (seeded uuid_a uuid_b) uuid_c
              {| body_name := Given "X"; body_memsize := Missing |})
    as (group & i1 & i2 & Hpost & _ & Hinst & Hid1 & Hid2 & Haddr).
  destruct Haddr as (a1 & a2 & H1 & H2 & Hne & Hin1 & Hin2 & _).
  - apply two_free_b_true. vm_compute. reflexivity.
  - exists group, i1, i2, a1, a2.
    exact (conj Hpost (conj Hinst (conj Hid1 (conj Hid2
             (conj H1 (conj H2 (conj Hne (conj Hin1 Hin2)))))))).
Defined.

(** ** Addresses stay unique *)

Lemma addr_unique_empty : addr_unique ∅.
Proof. intros k1 g1 n1 i1 k2 g2 n2 i2 Hk1. by rewrite lookup_empty in Hk1. Qed.

Lemma addr_unique_delete GROUPS group_id :
  addr_unique GROUPS → addr_unique (delete group_id GROUPS).
Proof.
  intros Huniq k1 g1 n1 i1 k2 g2 n2 i2 [_ Hk1]%lookup_delete_Some Hn1
    [_ Hk2]%lookup_delete_Some Hn2.
  by apply (Huniq k1 g1 n1 i1 k2 g2 n2 i2).
Qed.

Lemma addr_unique_update GROUPS group_id group group' :
  addr_unique GROUPS →
  GROUPS !! group_id = Some group →
  g_instances group' = g_instances group →
  addr_unique (<[group_id := group']> GROUPS).
Proof.
  intros Huniq Hg Hsame.
  assert (Hback : ∀ k g, <[group_id := group']> GROUPS !! k = Some g →
            ∃ g0, GROUPS !! k = Some g0 ∧ g_instances g0 = g_instances g).
  { intros k g. destruct (decide (group_id = k)) as [->|Hne].
    - rewrite lookup_insert_eq. intros [= <-]. by exists group.
    - rewrite lookup_insert_ne by done. intros Hk. by exists g. }
  intros k1 g1 n1 i1 k2 g2 n2 i2 (h1 & Hk1 & Hi1)%Hback Hn1 (h2 & Hk2 & Hi2)%Hback Hn2.
  rewrite <- Hi1 in Hn1. rewrite <- Hi2 in Hn2.
  by apply (Huniq k1 h1 n1 i1 k2 h2 n2 i2).
Qed.

Lemma addr_unique_create GROUPS uuid name memsize :
  addr_unique GROUPS →
  two_free GROUPS →
  addr_unique (<[uuid := new_group GROUPS uuid name memsize]> GROUPS).
Proof.
  intros Huniq Hfree.
  destruct (new_group_instances GROUPS uuid name memsize Hfree)
    as (a1 & a2 & Hf1%free_not_recorded & Hf2%free_not_recorded & Hne & Hinst).
  set (group := new_group GROUPS uuid name memsize) in *.
  assert (Hnew : ∀ n i, g_instances group !! n = Some i → ¬ recorded GROUPS (i_addr i)).
  { intros n i. rewrite Hinst. destruct n as [|[|n]]; [| |done]; by intros [= <-]. }
  assert (Hold : ∀ k g n i, GROUPS !! k = Some g → g_instances g !! n = Some i →
            recorded GROUPS (i_addr i)).
  { intros k g n i Hk Hn. exists k, g, i. split_and!; [done| |done].
    by apply list_elem_of_lookup_2 in Hn. }
  clearbody group.
  intros k1 g1 n1 i1 k2 g2 n2 i2 Hk1 Hn1 Hk2 Hn2 Heq.
  destruct (decide (uuid = k1)) as [<-|Hne1], (decide (uuid = k2)) as [<-|Hne2].
  - rewrite lookup_insert_eq in Hk1, Hk2. simplify_eq. split; [done|].
    rewrite Hinst in Hn1, Hn2.
    destruct n1 as [|[|n1]], n2 as [|[|n2]]; simplify_eq/=; congruence.
  - rewrite lookup_insert_eq in Hk1. rewrite lookup_insert_ne in Hk2 by done. simplify_eq.
    destruct (Hnew _ _ Hn1). rewrite Heq. by eapply Hold.
  - rewrite lookup_insert_eq in Hk2. rewrite lookup_insert_ne in Hk1 by done. simplify_eq.
    destruct (Hnew _ _ Hn2). rewrite <- Heq. by eapply Hold.
  - rewrite lookup_insert_ne in Hk1, Hk2 by done.
    by apply (Huniq k1 g1 n1 i1 k2 g2 n2 i2).
Qed.

Lemma addr_unique_step GROUPS (op : Op) :
  addr_unique GROUPS →
  match op with
  | POST _ request => accepted request = true → two_free GROUPS
  | _ => True
  end →
  addr_unique (step GROUPS op).
Proof.
  intros Huniq Hfree. destruct op as [uuid request|group_id|group_id request|group_id|].
  - pose proof (step_POST GROUPS uuid request) as Hstep.
    destruct (accepted request); [|by rewrite Hstep].
    destruct Hstep as (n & m & ->). apply addr_unique_create; auto.
  - by rewrite step_GET.
  - destruct (step_PUT GROUPS group_id request) as [->|(g & g' & Hg & Hsame & ->)]; [done|].
    apply (addr_unique_update _ _ g); [done..|]. apply Hsame.
  - rewrite step_DELETE. by apply addr_unique_delete.
  - by rewrite step_LIST.
Qed.

Lemma addr_unique_run (ops : list Op) GROUPS :
  addr_unique GROUPS → no_exhaustion GROUPS ops → addr_unique (run GROUPS ops).
Proof.
  revert GROUPS. induction ops as [|op ops IH]; intros GROUPS Huniq Hops; [done|].
  destruct Hops as [Hop Hops]. simpl. apply IH; [|done]. by apply addr_unique_step.
Qed.

(** The store after seeding: the two creations of the module body. *)
Lemma seeded_eq uuid1 uuid2 :
  let GROUPS1 := <[uuid1 := new_group ∅ uuid1 "memcached for Bob" float_0_5]> ∅ in
  seeded uuid1 uuid2
  = <[uuid2 := new_group GROUPS1 uuid2 "memcached for Alice" float_1_2]> GROUPS1.
Proof. reflexivity. Qed.

Lemma two_free_empty : two_free ∅.
Proof. apply two_free_b_true. vm_compute. reflexivity. Qed.

Lemma two_free_first_seed uuid1 :
  two_free (<[uuid1 := new_group ∅ uuid1 "memcached for Bob" float_0_5]> ∅).
Proof.
  assert (Hrec : ∀ v, recorded (<[uuid1 := new_group ∅ uuid1 "memcached for Bob" float_0_5]> ∅) v →
            v = Some "172.20.0.1" ∨ v = Some "172.20.0.2").
  { intros v (k & g & i & Hk & Hi & <-). apply lookup_insert_Some in Hk as [[_ <-]|[_ Hk]].
    - change (g_instances _) with
        [ {| i_id := uuid1 +:+ "_1"; i_name := "1"; i_addr := Some "172.20.0.1";
             i_host := "localhost" |};
          {| i_id := uuid1 +:+ "_2"; i_name := "2"; i_addr := Some "172.20.0.2";
             i_host := "localhost" |} ] in Hi.
      apply elem_of_cons in Hi as [->|Hi]; [by left|].
      apply list_elem_of_singleton in Hi as ->. by right.
    - by rewrite lookup_empty in Hk. }
  exists 2886991875%N, 2886991876%N. split_and!; [done| |].
  - split; [unfold in_subnet; lia|]. intros [Hnet|[Hr%Hrec|Hs]].
    + by rewrite net_eq in Hnet.
    + by destruct Hr.
    + by apply elem_of_nil in Hs.
  - split; [unfold in_subnet; lia|]. intros [Hnet|[Hr%Hrec|Hs]].
    + by rewrite net_eq in Hnet.
    + by destruct Hr.
    + by apply elem_of_nil in Hs.
Qed.

Lemma addr_unique_seeded uuid1 uuid2 : addr_unique (seeded uuid1 uuid2).
Proof.
  rewrite seeded_eq. cbv zeta.
  apply addr_unique_create; [|apply two_free_first_seed].
  apply addr_unique_create; [apply addr_unique_empty|apply two_free_empty].
Qed.

(** C3: starting from the seeded store, whatever the uuids drawn, after any
    list of create, read, update, delete and list requests in which the
    allocator was never exhausted, no two instance records of the store have
    the same [addr]. *)
Theorem addresses_unique_until_exhaustion uuid1 uuid2 (ops : list Op) :
  no_exhaustion (seeded uuid1 uuid2) ops →
  addr_unique (run (seeded uuid1 uuid2) ops).
Proof. apply addr_unique_run, addr_unique_seeded. Qed.

Lemma addresses_unique_until_exhaustion_witness :
  addr_unique
    (run (seeded uuid_a uuid_b)
       [ POST uuid_c {| body_name := Given "X"; body_memsize := Missing |};
         PUT uuid_a {| body_name := Given "renamed"; body_memsize := Given float_1_2 |};
         DELETE uuid_b;
         POST uuid_b {| body_name := Given "Y"; body_memsize := Given float_1_2 |} ]).
Proof.
  apply addresses_unique_until_exhaustion. cbn [no_exhaustion].
  split_and!; try exact I; intros _; apply two_free_b_true; vm_compute; reflexivity.
Defined.

(** ** Exhaustion *)

Lemma allocate_ip_None GROUPS skip :
  (∀ a, in_subnet a → unavailable GROUPS skip a) → allocate_ip GROUPS skip = None.
Proof.
  intros Hall. pose proof (allocate_ip_spec GROUPS skip) as Hspec.
  destruct (allocate_ip GROUPS skip) as [r|]; [|done].
  destruct Hspec as (a & Ha & _ & Hfree & _). destruct Hfree. by apply Hall.
Qed.

Lemma allocate_ip_lowest GROUPS skip (a : N) :
  in_subnet a →
  ¬ unavailable GROUPS skip a →
  (∀ b, in_subnet b → (b < a)%N → unavailable GROUPS skip b) →
  allocate_ip GROUPS skip = Some (ipaddress.str a).
Proof.
  intros Ha Hfree Hlow. pose proof (allocate_ip_spec GROUPS skip) as Hspec.
  destruct (allocate_ip GROUPS skip) as [r|].
  - destruct Hspec as (a' & Ha' & -> & Hfree' & Hlow').
    destruct (N.lt_trichotomy a' a) as [Hlt|[->|Hgt]]; [|done|].
    + destruct Hfree'. by apply Hlow.
    + destruct Hfree. by apply Hlow'.
  - destruct Hfree. by apply Hspec.
Qed.

Lemma dense_unavailable GROUPS (m a : N) :
  dense GROUPS m → (m ≤ 65535)%N → in_subnet a →
  unavailable GROUPS [] a ↔ (a ≤ 2886991872 + m)%N.
Proof.
  intros Hdense Hm Ha. unfold dense in Hdense. unfold unavailable.
  rewrite net_eq, Hdense, elem_of_nil. simpl.
  unfold in_subnet in Ha. split.
  - intros [->|[(i & Hi & [= Heq])|[]]]; [lia|].
    apply str_inj in Heq; lia.
  - intros Hle. destruct (decide (a = 2886991872%N)) as [->|Hne]; [by left|].
    right. left. exists (a - 2886991872)%N. split; [lia|]. do 2 f_equal. lia.
Qed.

Lemma dense_allocate_first GROUPS (m : N) :
  dense GROUPS m → (m < 65535)%N →
  allocate_ip GROUPS [] = Some (ipaddress.str (2886991872 + m + 1)).
Proof.
  intros Hdense Hm. apply allocate_ip_lowest.
  - unfold in_subnet. lia.
  - rewrite (dense_unavailable _ m) by (done || unfold in_subnet; lia). lia.
  - intros b Hb Hlt. rewrite (dense_unavailable _ m) by (done || lia). lia.
Qed.

Lemma dense_allocate_second GROUPS (m : N) :
  dense GROUPS m → (m + 1 < 65535)%N →
  allocate_ip GROUPS [Some (ipaddress.str (2886991872 + m + 1))]
  = Some (ipaddress.str (2886991872 + m + 2)).
Proof.
  intros Hdense Hm. apply allocate_ip_lowest.
  - unfold in_subnet. lia.
  - rewrite unavailable_skip, (dense_unavailable _ m) by (done || unfold in_subnet; lia).
    intros [?|[= Heq]]; [lia|]. apply str_inj in Heq; lia.
  - intros b Hb Hlt. rewrite unavailable_skip, (dense_unavailable _ m) by (done || lia).
    destruct (decide (b = 2886991872 + m + 1)%N) as [->|Hne]; [by right|]. left. lia.
Qed.

(** With one address left, the second allocation of a creation finds none. *)
Lemma dense_allocate_nothing GROUPS :
  dense GROUPS 65534 →
  allocate_ip GROUPS [Some (ipaddress.str (2886991872 + 65534 + 1))] = None.
Proof.
  intros Hdense. apply allocate_ip_None. intros a Ha.
  rewrite unavailable_skip, (dense_unavailable _ 65534) by (done || lia).
  destruct (decide (a = 2886991872 + 65534 + 1)%N) as [->|Hne]; [by right|].
  left. unfold in_subnet in Ha. lia.
Qed.

Lemma recorded_insert_fresh GROUPS key group (v : option string) :
  GROUPS !! key = None →
  recorded (<[key := group]> GROUPS) v
  ↔ recorded GROUPS v ∨ ∃ instance, instance ∈ g_instances group ∧ i_addr instance = v.
Proof.
  intros Hfresh. split.
  - intros (k & g & i & Hk & Hi & Hv). apply lookup_insert_Some in Hk as [[_ <-]|[_ Hk]].
    + right. by exists i.
    + left. by exists k, g, i.
  - intros [(k & g & i & Hk & Hi & Hv)|(i & Hi & Hv)].
    + exists k, g, i. split; [|done]. rewrite lookup_insert_ne; [done|]. congruence.
    + exists key, group, i. by rewrite lookup_insert_eq.
Qed.

Lemma counter_texts_ok :
  forallb (fun k => match ipaddress.int (counter_text k) with
                    | Some j => (j =? k)%N
                    | None => false
                    end) (ipaddress.range 0 (N.to_nat 32768)) = true.
Proof. vm_compute. reflexivity. Qed.

Lemma append_inv_head (p s t : string) : p +:+ s = p +:+ t → s = t.
Proof. induction p as [|c p IH]; simpl; [done|]. intros [= Heq]. by apply IH. Qed.

Lemma uuid_of_inj (j k : N) : (j < 32768)%N → (k < 32768)%N → uuid_of j = uuid_of k → j = k.
Proof.
  assert (Hint : ∀ n, (n < 32768)%N → ipaddress.int (counter_text n) = Some n).
  { intros n Hn. pose proof counter_texts_ok as Hall. rewrite forallb_forall in Hall.
    assert (Hin : n ∈ ipaddress.range 0 (N.to_nat 32768)).
    { apply elem_of_range. rewrite N2Nat.id. lia. }
    apply list_elem_of_In, Hall in Hin.
    destruct (ipaddress.int _) as [n'|]; [|done]. apply N.eqb_eq in Hin. by subst. }
  intros Hj Hk Heq. unfold uuid_of in Heq.
  apply append_inv_head in Heq as Htext.
  apply Hint in Hj, Hk. rewrite Htext in Hj. congruence.
Qed.

Lemma new_group_second_addr GROUPS uuid name memsize (i1 i2 : Instance) :
  g_instances (new_group GROUPS uuid name memsize) = [i1; i2] →
  i_addr i2 = allocate_ip GROUPS [allocate_ip GROUPS []].
Proof. by intros [= _ <-]. Qed.

Lemma packed_empty : packed ∅ 0.
Proof.
  split.
  - intros v. split.
    + intros (k & g & i & Hk & _). by rewrite lookup_empty in Hk.
    + intros (i & Hi & _). lia.
  - intros key [g Hg]. by rewrite lookup_empty in Hg.
Qed.

Lemma packed_create GROUPS (s : N) name memsize :
  packed GROUPS s → (s < 32767)%N →
  packed (<[uuid_of s := new_group GROUPS (uuid_of s) name memsize]> GROUPS) (s + 1).
Proof.
  intros [Hdense Hkeys] Hs.
  assert (Hfresh : GROUPS !! uuid_of s = None).
  { apply eq_None_not_Some. intros (j & Hj & Heq%uuid_of_inj)%Hkeys; lia. }
  split.
  - intros v. rewrite recorded_insert_fresh by done. unfold new_group. simpl.
    rewrite (dense_allocate_first _ (2 * s)), (dense_allocate_second _ (2 * s)) by (done || lia).
    unfold dense in Hdense. rewrite Hdense. split.
    + intros [(i & Hi & ->)|(inst & Hin & <-)].
      * exists i. split; [lia|done].
      * apply elem_of_cons in Hin as [->|Hin].
        { exists (2 * s + 1)%N. split; [lia|]. simpl. do 2 f_equal. lia. }
        apply list_elem_of_singleton in Hin as ->.
        exists (2 * s + 2)%N. split; [lia|]. simpl. do 2 f_equal. lia.
    + intros (i & Hi & ->).
      destruct (decide (i ≤ 2 * s)%N) as [Hle|Hgt]; [left; exists i; split; [lia|done]|].
      right. destruct (decide (i = 2 * s + 1)%N) as [->|Hne].
      * eexists. split; [left|]. simpl. do 2 f_equal. lia.
      * eexists. split; [right; left|]. simpl. do 2 f_equal. lia.
  - intros key [<-|[_ Hk]]%lookup_insert_is_Some.
    + exists s. split; [lia|done].
    + destruct (Hkeys key Hk) as (j & Hj & ->). exists j. split; [lia|done].
Qed.

Lemma packed_seeded : packed (seeded (uuid_of 0) (uuid_of 1)) 2.
Proof.
  rewrite seeded_eq. cbv zeta.
  apply (packed_create _ 1); [|lia]. apply (packed_create _ 0); [|lia]. apply packed_empty.
Qed.

Lemma packed_run (count : nat) (s : N) GROUPS :
  packed GROUPS s → (s + N.of_nat count ≤ 32767)%N →
  packed (run GROUPS (creations (ipaddress.range s count))) (s + N.of_nat count).
Proof.
  revert s GROUPS. induction count as [|count IH]; intros s GROUPS Hpacked Hle.
  - simpl. by rewrite N.add_0_r.
  - simpl ipaddress.range. unfold creations. rewrite fmap_cons. fold (creations (ipaddress.range (N.succ s) count)).
    unfold run. simpl foldl. fold (run (step GROUPS (POST (uuid_of s) filler))
                                        (creations (ipaddress.range (N.succ s) count))).
    replace (s + N.of_nat (S count))%N with (N.succ s + N.of_nat count)%N by lia.
    apply IH; [|lia].
    replace (N.succ s) with (s + 1)%N by lia.
    change (step GROUPS (POST (uuid_of s) filler))
      with (<[uuid_of s := new_group GROUPS (uuid_of s) "X" float_0_5]> GROUPS).
    apply packed_create; [done|lia].
Qed.

Lemma nearly_full_dense : dense nearly_full 65534.
Proof.
  pose proof (packed_run (N.to_nat 32765) 2 _ packed_seeded) as [Hdense _].
  { rewrite N2Nat.id. lia. }
  rewrite N2Nat.id in Hdense. exact Hdense.
Qed.

Lemma dense_creation GROUPS uuid :
  dense GROUPS 65534 → ¬ creation_gives_two_subnet_addresses GROUPS uuid filler.
Proof.
  intros Hdense Hclaim.
  destruct (Hclaim (new_group GROUPS uuid "X" float_0_5) 201%Z
              (<[uuid := new_group GROUPS uuid "X" float_0_5]> GROUPS))
    as (i1 & i2 & a1 & a2 & Hinst & _ & _ & _ & Haddr2 & _); [reflexivity|].
  apply new_group_second_addr in Hinst.
  pose proof (dense_allocate_first GROUPS 65534 Hdense) as Hfirst.
  pose proof (dense_allocate_nothing GROUPS Hdense) as Hsecond.
  assert (allocate_ip GROUPS [allocate_ip GROUPS []] = None) as Hnone.
  { rewrite Hfirst by lia. exact Hsecond. }
  congruence.
Qed.

(** The next creation succeeds with status 201, the second instance of its
    group has no address. *)
Lemma creation_without_second_address :
  ¬ creation_gives_two_subnet_addresses nearly_full (uuid_of 32767) filler.
Proof. apply dense_creation, nearly_full_dense. Qed.

(** * Further properties of the handlers *)

(** ** Outcomes of an update *)

Lemma Group_put_stored_eq GROUPS group_id group (nm : Field string) (ms : Field float) :
  GROUPS !! group_id = Some group →
  nm ≠ Unconvertible →
  ms ≠ Unconvertible →
  Group_put group_id {| body_name := nm; body_memsize := ms |} GROUPS
  = (Ret (GroupBody (updated group nm ms), 201%Z), <[group_id := updated group nm ms]> GROUPS).
Proof.
  intros Hg Hnm Hms. unfold Group_put, bind, lift, getitem, setitem, ret, updated.
  destruct group as [gn gi gm gt gs gl].
  destruct nm as [| |n]; [|done|]; destruct ms as [| |m]; try done; simpl; rewrite Hg; simpl;
    try destruct (str_truthy n); try destruct (float_truthy m); reflexivity.
Qed.

Lemma updated_same_identity group nm ms : same_identity group (updated group nm ms).
Proof. by repeat split. Qed.

Lemma updated_idempotent group nm ms :
  updated (updated group nm ms) nm ms = updated group nm ms.
Proof.
  unfold updated. simpl. f_equal.
  - destruct nm as [| |n]; try done. by destruct (str_truthy n) eqn:Hn; rewrite ?Hn.
  - destruct ms as [| |m]; try done. by destruct (float_truthy m) eqn:Hm; rewrite ?Hm.
Qed.

(** The store after an update, case by case. *)
Lemma step_PUT_eq GROUPS group_id (nm : Field string) (ms : Field float) :
  step GROUPS (PUT group_id {| body_name := nm; body_memsize := ms |})
  = match GROUPS !! group_id with
    | Some group =>
        match nm, ms with
        | Unconvertible, _ | _, Unconvertible => GROUPS
        | _, _ => <[group_id := updated group nm ms]> GROUPS
        end
    | None => GROUPS
    end.
Proof.
  unfold step. simpl handle.
  assert (nm = Unconvertible ∨ nm ≠ Unconvertible) as [->|Hnm]
    by (destruct nm; [right|left|right]; congruence).
  { rewrite Group_put_invalid_name. by destruct (GROUPS !! group_id). }
  assert (ms = Unconvertible ∨ ms ≠ Unconvertible) as [->|Hms]
    by (destruct ms; [right|left|right]; congruence).
  { rewrite Group_put_invalid_memsize by done.
    destruct (GROUPS !! group_id); by destruct nm. }
  destruct (GROUPS !! group_id) as [group|] eqn:Hg.
  - rewrite (Group_put_stored_eq _ _ group) by done. by destruct nm, ms.
  - by rewrite Group_put_unknown.
Qed.

(** X1: the outcomes of [Group.put], in the order the handler decides them:
    an unconvertible [name] aborts with 400, then an unconvertible [memsize]
    does, both with the store untouched and whether or not the identifier is
    stored; then an unknown identifier raises [KeyError]; otherwise the
    updated group is stored under the identifier and returned with status
    201. *)
Theorem Group_put_outcomes GROUPS group_id (nm : Field string) (ms : Field float) :
  Group_put group_id {| body_name := nm; body_memsize := ms |} GROUPS
  = match nm, ms with
    | Unconvertible, _ => (Raise (HTTPException 400 "name"), GROUPS)
    | _, Unconvertible => (Raise (HTTPException 400 "memsize"), GROUPS)
    | _, _ =>
        match GROUPS !! group_id with
        | None => (Raise (KeyError group_id), GROUPS)
        | Some group =>
            (Ret (GroupBody (updated group nm ms), 201%Z),
             <[group_id := updated group nm ms]> GROUPS)
        end
    end.
Proof.
  assert (nm = Unconvertible ∨ nm ≠ Unconvertible) as [->|Hnm]
    by (destruct nm; [right|left|right]; congruence); [done|].
  assert (ms = Unconvertible ∨ ms ≠ Unconvertible) as [->|Hms]
    by (destruct ms; [right|left|right]; congruence).
  { rewrite Group_put_invalid_memsize by done. by destruct nm. }
  destruct (GROUPS !! group_id) as [group|] eqn:Hg.
  - rewrite (Group_put_stored_eq _ _ group) by done. by destruct nm, ms.
  - rewrite Group_put_unknown by done. by destruct nm, ms.
Qed.

(** X2: an update repeated with the same body changes nothing more: the
    store after two equal updates is the store after one. *)
Theorem put_idempotent GROUPS group_id request :
  run GROUPS [PUT group_id request; PUT group_id request]
  = run GROUPS [PUT group_id request].
Proof.
  destruct request as [nm ms]. unfold run. simpl foldl.
  rewrite (step_PUT_eq GROUPS).
  destruct (GROUPS !! group_id) as [group|] eqn:Hg.
  - assert (nm = Unconvertible ∨ nm ≠ Unconvertible) as [->|Hnm]
      by (destruct nm; [right|left|right]; congruence).
    { rewrite step_PUT_eq. by rewrite Hg. }
    assert (ms = Unconvertible ∨ ms ≠ Unconvertible) as [->|Hms]
      by (destruct ms; [right|left|right]; congruence).
    { destruct nm; rewrite step_PUT_eq; by rewrite Hg. }
    assert (match nm, ms with
            | Unconvertible, _ | _, Unconvertible => GROUPS
            | _, _ => <[group_id := updated group nm ms]> GROUPS
            end = <[group_id := updated group nm ms]> GROUPS) as ->
      by (by destruct nm, ms).
    rewrite step_PUT_eq, lookup_insert_eq, updated_idempotent, insert_insert_eq.
    by destruct nm, ms.
  - rewrite step_PUT_eq. by rewrite Hg.
Qed.

(** X3: an update never adds or removes a group, and leaves every group
    stored under another identifier exactly as it was. *)
Theorem put_keeps_other_groups GROUPS group_id request :
  dom (step GROUPS (PUT group_id request)) = dom GROUPS
  ∧ ∀ key, key ≠ group_id → step GROUPS (PUT group_id request) !! key = GROUPS !! key.
Proof.
  destruct request as [nm ms]. rewrite step_PUT_eq.
  destruct (GROUPS !! group_id) as [group|] eqn:Hg; [|done].
  assert (Hdom : dom (<[group_id := updated group nm ms]> GROUPS) = dom GROUPS).
  { rewrite dom_insert_L. apply elem_of_dom_2 in Hg. apply set_eq. intros k.
    rewrite elem_of_union, elem_of_singleton. split; [by intros [->|?]|by right]. }
  destruct nm, ms; split; try done; intros key Hkey; by rewrite lookup_insert_ne.
Qed.

(** X4: after a successful update, reading the identifier returns, with
    status 200, the very group the update returned with status 201. *)
Theorem put_then_get GROUPS group_id group (nm : Field string) (ms : Field float) :
  GROUPS !! group_id = Some group →
  nm ≠ Unconvertible →
  ms ≠ Unconvertible →
  ∃ group' GROUPS',
    Group_put group_id {| body_name := nm; body_memsize := ms |} GROUPS
      = (Ret (GroupBody group', 201%Z), GROUPS')
    ∧ Group_get group_id GROUPS' = (Ret (GroupBody group', 200%Z), GROUPS').
Proof.
  intros Hg Hnm Hms. eexists _, _. split; [by apply Group_put_stored_eq|].
  apply Group_get_stored, lookup_insert_eq.
Qed.

Lemma put_then_get_witness :
  ∃ group' GROUPS',
    Group_put uuid_b {| body_name := Given "x"; body_memsize := Given float_0_5 |}
      (seeded uuid_a uuid_b)
      = (Ret (GroupBody group', 201%Z), GROUPS')
    ∧ Group_get uuid_b GROUPS' = (Ret (GroupBody group', 200%Z), GROUPS').
Proof.
  destruct seeded_lookup_b as (group & Hg & _).
  apply (put_then_get _ uuid_b group (Given "x") (Given float_0_5) Hg); discriminate.
Defined.

(** ** Reading, creating and deleting, one after the other *)

(** X5: [Group.get] returns the stored group with status 200 for a stored
    identifier and aborts with 404 and the message of
    [abort_if_group_doesnt_exist] for any other; it never changes the
    store. *)
Theorem Group_get_outcomes GROUPS group_id :
  Group_get group_id GROUPS
  = match GROUPS !! group_id with
    | Some group => (Ret (GroupBody group, 200%Z), GROUPS)
    | None =>
        (Raise (HTTPException 404 ("group " +:+ group_id +:+ " doesn't exist")), GROUPS)
    end.
Proof.
  destruct (GROUPS !! group_id) as [group|] eqn:Hg.
  - by apply Group_get_stored.
  - by apply Group_get_unknown.
Qed.

Lemma step_POST_accepted GROUPS uuid request :
  accepted request = true →
  ∃ n m,
    body_name request = Given n
    ∧ m = match body_memsize request with Given m => m | _ => float_0_5 end
    ∧ GroupList_post uuid request GROUPS
      = (Ret (GroupBody (new_group GROUPS uuid n m), 201%Z),
         <[uuid := new_group GROUPS uuid n m]> GROUPS).
Proof.
  destruct request as [[| |n] ms]; try discriminate. intros Hacc.
  exists n, (match ms with Given m => m | _ => float_0_5 end). split_and!; [done..|].
  apply GroupList_post_accepted. by destruct ms.
Qed.

Lemma step_POST_rejected GROUPS uuid request :
  accepted request = false → step GROUPS (POST uuid request) = GROUPS.
Proof.
  intros Hacc. unfold step. simpl.
  by destruct (GroupList_post_rejected GROUPS uuid request Hacc) as [arg ->].
Qed.

(** X6: a creation whose body is accepted stores the group it returns under
    the uuid drawn: reading that identifier afterwards returns the same group
    with status 200, the listing holds it under that key, and every group
    stored under another identifier is as before. A creation whose body is
    rejected leaves the store as it was. *)
Theorem post_then_get GROUPS uuid request :
  if accepted request
  then
    ∃ group GROUPS',
      GroupList_post uuid request GROUPS = (Ret (GroupBody group, 201%Z), GROUPS')
      ∧ Group_get uuid GROUPS' = (Ret (GroupBody group, 200%Z), GROUPS')
      ∧ GroupList_get GROUPS' = (Ret (GroupsBody GROUPS', 200%Z), GROUPS')
      ∧ GROUPS' !! uuid = Some group
      ∧ ∀ key, key ≠ uuid → GROUPS' !! key = GROUPS !! key
  else snd (GroupList_post uuid request GROUPS) = GROUPS.
Proof.
  destruct (accepted request) eqn:Hacc; [|by apply step_POST_rejected].
  destruct (step_POST_accepted GROUPS uuid request Hacc) as (n & m & _ & _ & Hpost).
  eexists _, _. split_and!; [exact Hpost| |done| |].
  - apply Group_get_stored, lookup_insert_eq.
  - apply lookup_insert_eq.
  - intros key Hkey. by rewrite lookup_insert_ne.
Qed.

(** X7: a creation under a uuid that no stored group has, followed by the
    deletion of that identifier, leaves the store exactly as it was before
    the two requests, whatever the body of the creation. *)
Theorem post_then_delete GROUPS uuid request :
  GROUPS !! uuid = None →
  run GROUPS [POST uuid request; DELETE uuid] = GROUPS.
Proof.
  intros Hfresh. unfold run. simpl foldl. rewrite step_DELETE.
  destruct (accepted request) eqn:Hacc.
  - destruct (step_POST_accepted GROUPS uuid request Hacc) as (n & m & _ & _ & Hpost).
    unfold step. simpl handle. rewrite Hpost. simpl. by rewrite delete_insert_id.
  - rewrite step_POST_rejected by done. by apply delete_id.
Qed.

Lemma post_then_delete_witness :
  run (seeded uuid_a uuid_b)
      [POST uuid_c {| body_name := Given "X"; body_memsize := Missing |}; DELETE uuid_c]
  = seeded uuid_a uuid_b.
Proof. apply post_then_delete. vm_compute. reflexivity. Defined.

(** X8: deleting an identifier a second time aborts with 404 and leaves the
    store as the first deletion left it. *)
Theorem delete_twice GROUPS group_id :
  Group_delete group_id (step GROUPS (DELETE group_id))
  = (Raise (HTTPException 404 ("group " +:+ group_id +:+ " doesn't exist")),
     step GROUPS (DELETE group_id))
  ∧ run GROUPS [DELETE group_id; DELETE group_id] = run GROUPS [DELETE group_id].
Proof.
  unfold run. simpl foldl. rewrite !step_DELETE. split.
  - apply Group_delete_unknown, lookup_delete_eq.
  - apply delete_id, lookup_delete_eq.
Qed.

(** ** What holds of every store the server can reach *)

(** A property of the empty store that creations, updates and deletions keep
    holds after seeding and any list of requests. *)
Lemma reachable_ind (P : gmap string Group → Prop) :
  P ∅ →
  (∀ GROUPS uuid name memsize, P GROUPS → P (<[uuid := new_group GROUPS uuid name memsize]> GROUPS)) →
  (∀ GROUPS group_id group group',
     P GROUPS → GROUPS !! group_id = Some group → same_identity group group' →
     P (<[group_id := group']> GROUPS)) →
  (∀ GROUPS group_id, P GROUPS → P (delete group_id GROUPS)) →
  ∀ uuid1 uuid2 ops, P (run (seeded uuid1 uuid2) ops).
Proof.
  intros Hempty Hcreate Hupdate Hdelete uuid1 uuid2 ops.
  assert (Hseed : P (seeded uuid1 uuid2)).
  { rewrite seeded_eq. cbv zeta. by do 2 apply Hcreate. }
  revert Hseed. generalize (seeded uuid1 uuid2). induction ops as [|op ops IH]; [done|].
  intros GROUPS HP. simpl. apply IH.
  destruct op as [uuid request|group_id|group_id request|group_id|].
  - pose proof (step_POST GROUPS uuid request) as Hstep.
    destruct (accepted request); [|by rewrite Hstep].
    destruct Hstep as (n & m & ->). by apply Hcreate.
  - by rewrite step_GET.
  - destruct (step_PUT GROUPS group_id request) as [->|(g & g' & Hg & Hsame & ->)]; [done|].
    by apply (Hupdate _ _ g).
  - rewrite step_DELETE. by apply Hdelete.
  - by rewrite step_LIST.
Qed.

Lemma store_well_formed_reachable uuid1 uuid2 ops :
  store_well_formed (run (seeded uuid1 uuid2) ops).
Proof.
  apply reachable_ind.
  - intros key group Hk. by rewrite lookup_empty in Hk.
  - intros GROUPS uuid name memsize Hwf key group [[<- <-]|[_ Hk]]%lookup_insert_Some.
    + split_and!; [done..|]. by eexists _, _.
    + by apply Hwf.
  - intros GROUPS group_id g g' Hwf Hg (Hid & Hty & Hst & Hin) key group
      [[<- <-]|[_ Hk]]%lookup_insert_Some; [|by apply Hwf].
    destruct (Hwf _ _ Hg) as (? & ? & ? & ?). unfold well_formed.
    rewrite Hid, Hty, Hst, Hin. by split_and!.
  - intros GROUPS group_id Hwf key group [_ Hk]%lookup_delete_Some. by apply Hwf.
Qed.

(** X9: in the seeded store and after any list of requests, every group is
    stored under its own [id], has the type "memcached", the state
    OK/passing and exactly two instances, named "1" and "2", with the ids
    [{id}_1] and [{id}_2] and the host "localhost". *)
Theorem stored_groups_well_formed uuid1 uuid2 (ops : list Op) :
  store_well_formed (run (seeded uuid1 uuid2) ops).
Proof. apply store_well_formed_reachable. Qed.

(** X10: the health states are listed under their own ids, with status 200
    and whatever the store; the state of every group the server can hold is
    the state listed under its id. *)
Theorem stored_state_is_listed uuid1 uuid2 (ops : list Op) :
  ∃ states,
    (∀ GROUPS, StateList_get GROUPS = (Ret (states, 200%Z), GROUPS))
    ∧ dom states = {[ "1"; "2"; "3" ]}
    ∧ (∀ key state, states !! key = Some state → s_id state = key)
    ∧ ∀ key group,
        run (seeded uuid1 uuid2) ops !! key = Some group →
        states !! s_id (g_state group) = Some (g_state group).
Proof.
  eexists. split_and!; [done| | |].
  - rewrite !dom_insert_L, dom_empty_L. apply set_eq. intros k.
    rewrite !elem_of_union, !elem_of_singleton, elem_of_empty. tauto.
  - intros key state Hk.
    repeat (apply lookup_insert_Some in Hk as [[<- <-]|[_ Hk]]; [done|]).
    by rewrite lookup_empty in Hk.
  - intros key group Hk.
    destruct (store_well_formed_reachable uuid1 uuid2 ops key group Hk) as (_ & _ & -> & _).
    done.
Qed.

Lemma recorded_insert GROUPS key group (v : option string) :
  recorded (<[key := group]> GROUPS) v →
  recorded GROUPS v ∨ ∃ instance, instance ∈ g_instances group ∧ i_addr instance = v.
Proof.
  intros (k & g & i & Hk & Hi & Hv). apply lookup_insert_Some in Hk as [[_ <-]|[_ Hk]].
  - right. by exists i.
  - left. by exists k, g, i.
Qed.

Lemma recorded_update GROUPS group_id group group' (v : option string) :
  GROUPS !! group_id = Some group →
  g_instances group' = g_instances group →
  recorded (<[group_id := group']> GROUPS) v ↔ recorded GROUPS v.
Proof.
  intros Hg Hsame. split.
  - intros [?|(i & Hi & Hv)]%recorded_insert; [done|].
    rewrite Hsame in Hi. by exists group_id, group, i.
  - intros (k & g & i & Hk & Hi & Hv). destruct (decide (group_id = k)) as [<-|Hne].
    + exists group_id, group', i. rewrite lookup_insert_eq, Hsame. by simplify_eq.
    + exists k, g, i. by rewrite lookup_insert_ne.
Qed.

Lemma recorded_delete GROUPS group_id (v : option string) :
  recorded (delete group_id GROUPS) v → recorded GROUPS v.
Proof.
  intros (k & g & i & [_ Hk]%lookup_delete_Some & Hi & Hv). by exists k, g, i.
Qed.

(** What the allocator returns is the text of a subnet address it could hand
    out. *)
Lemma allocate_ip_Some GROUPS skip (r : string) :
  allocate_ip GROUPS skip = Some r →
  ∃ a, r = ipaddress.str a ∧ in_subnet a ∧ ¬ unavailable GROUPS skip a.
Proof.
  intros Hr. pose proof (allocate_ip_spec GROUPS skip) as Hspec. rewrite Hr in Hspec.
  destruct Hspec as (a & Ha & -> & Hfree & _). by exists a.
Qed.

Lemma new_group_addrs GROUPS uuid name memsize (instance : Instance) :
  instance ∈ g_instances (new_group GROUPS uuid name memsize) →
  i_addr instance = allocate_ip GROUPS []
  ∨ i_addr instance = allocate_ip GROUPS [allocate_ip GROUPS []].
Proof.
  unfold new_group. simpl. intros [->|Hi]%elem_of_cons; [by left|].
  apply list_elem_of_singleton in Hi as ->. by right.
Qed.

Lemma addrs_in_subnet_reachable uuid1 uuid2 ops :
  addrs_in_subnet (run (seeded uuid1 uuid2) ops).
Proof.
  apply reachable_ind.
  - intros v (k & g & i & Hk & _). by rewrite lookup_empty in Hk.
  - intros GROUPS uuid name memsize Hin v [?|(i & Hi & <-)]%recorded_insert; [by apply Hin|].
    destruct (i_addr i) as [r|] eqn:Hr; [|by left]. right.
    apply new_group_addrs in Hi. rewrite Hr in Hi.
    assert (∃ skip, allocate_ip GROUPS skip = Some r) as [skip Halloc].
    { destruct Hi as [Hi|Hi]; eauto. }
    apply allocate_ip_Some in Halloc as (a & -> & Ha & Hfree).
    exists a. split_and!; [done..|]. intros ->. apply Hfree. by left.
  - intros GROUPS group_id g g' Hin Hg (_ & _ & _ & Hsame) v Hv.
    apply Hin. by apply (recorded_update GROUPS group_id g g' v Hg Hsame).
  - intros GROUPS group_id Hin v Hv%recorded_delete. by apply Hin.
Qed.

(** X11: in the seeded store and after any list of requests, allocator
    exhausted or not, the [addr] of every instance is [None] or the text of
    an address of 172.20.0.0/16 other than the network address. *)
Theorem stored_addrs_in_subnet uuid1 uuid2 (ops : list Op) :
  addrs_in_subnet (run (seeded uuid1 uuid2) ops).
Proof. apply addrs_in_subnet_reachable. Qed.

Lemma allocate_ip_not_recorded GROUPS skip (r : string) :
  allocate_ip GROUPS skip = Some r → ¬ recorded GROUPS (Some r) ∧ Some r ∉ skip.
Proof.
  intros (a & -> & _ & Hfree)%allocate_ip_Some. unfold unavailable in Hfree. tauto.
Qed.

Lemma new_group_two_instances GROUPS uuid name memsize (n : nat) (instance : Instance) :
  g_instances (new_group GROUPS uuid name memsize) !! n = Some instance →
  (n = 0%nat ∧ i_addr instance = allocate_ip GROUPS [])
  ∨ (n = 1%nat ∧ i_addr instance = allocate_ip GROUPS [allocate_ip GROUPS []]).
Proof.
  unfold new_group. simpl. destruct n as [|[|n]]; [| |done]; intros [= <-]; auto.
Qed.

Lemma text_unique_reachable uuid1 uuid2 ops : text_unique (run (seeded uuid1 uuid2) ops).
Proof.
  apply reachable_ind.
  - intros k1 g1 n1 i1 k2 g2 n2 i2 Hk1. by rewrite lookup_empty in Hk1.
  - intros GROUPS uuid name memsize Huniq.
    assert (Hnew : ∀ n i, g_instances (new_group GROUPS uuid name memsize) !! n = Some i →
              is_Some (i_addr i) → ¬ recorded GROUPS (i_addr i)).
    { intros n i Hn [r Hr]. rewrite Hr.
      apply new_group_two_instances in Hn as [[_ Hi]|[_ Hi]]; rewrite Hr in Hi;
        symmetry in Hi; by apply allocate_ip_not_recorded in Hi as [? _]. }
    assert (Hold : ∀ k g n i, GROUPS !! k = Some g → g_instances g !! n = Some i →
              recorded GROUPS (i_addr i)).
    { intros k g n i Hk Hn. exists k, g, i. split_and!; [done| |done].
      by apply list_elem_of_lookup_2 in Hn. }
    intros k1 g1 n1 i1 k2 g2 n2 i2 Hk1 Hn1 Hk2 Hn2 Heq Hsome.
    apply lookup_insert_Some in Hk1 as [[<- <-]|[Hne1 Hk1]];
      apply lookup_insert_Some in Hk2 as [[<- <-]|[Hne2 Hk2]].
    + split; [done|].
      apply new_group_two_instances in Hn1 as [[-> H1]|[-> H1]];
        apply new_group_two_instances in Hn2 as [[-> H2]|[-> H2]]; try done.
      * rewrite H1 in Hsome, Heq. rewrite H2 in Heq. destruct Hsome as [r Hr].
        rewrite Hr in Heq. symmetry in Heq.
        apply allocate_ip_not_recorded in Heq as [_ Hskip].
        destruct Hskip. by apply list_elem_of_singleton.
      * rewrite H1 in Hsome, Heq. rewrite H2 in Heq. destruct Hsome as [r Hr].
        rewrite Hr in Heq. rewrite <- Heq in Hr.
        apply allocate_ip_not_recorded in Hr as [_ Hskip].
        destruct Hskip. by apply list_elem_of_singleton.
    + destruct (Hnew _ _ Hn1 Hsome). rewrite Heq. by eapply Hold.
    + rewrite Heq in Hsome. destruct (Hnew _ _ Hn2 Hsome). rewrite <- Heq. by eapply Hold.
    + by apply (Huniq k1 g1 n1 i1 k2 g2 n2 i2).
  - intros GROUPS group_id g g' Huniq Hg (_ & _ & _ & Hsame).
    assert (Hback : ∀ k h, <[group_id := g']> GROUPS !! k = Some h →
              ∃ h0, GROUPS !! k = Some h0 ∧ g_instances h0 = g_instances h).
    { intros k h [[<- <-]|[_ Hk]]%lookup_insert_Some; [by exists g|by exists h]. }
    intros k1 g1 n1 i1 k2 g2 n2 i2 (h1 & Hk1 & Hi1)%Hback Hn1 (h2 & Hk2 & Hi2)%Hback Hn2.
    rewrite <- Hi1 in Hn1. rewrite <- Hi2 in Hn2.
    by apply (Huniq k1 h1 n1 i1 k2 h2 n2 i2).
  - intros GROUPS group_id Huniq k1 g1 n1 i1 k2 g2 n2 i2 [_ Hk1]%lookup_delete_Some Hn1
      [_ Hk2]%lookup_delete_Some Hn2.
    by apply (Huniq k1 g1 n1 i1 k2 g2 n2 i2).
Qed.

(** X12: in the seeded store and after any list of requests, allocator
    exhausted or not, no address text is on two instance records: two
    distinct records can only share the [addr] [None]. *)
Theorem address_texts_unique uuid1 uuid2 (ops : list Op) :
  text_unique (run (seeded uuid1 uuid2) ops).
Proof. apply text_unique_reachable. Qed.

(** ** More on the allocator *)



Lemma allocated_ips_update GROUPS group_id group group' :
  GROUPS !! group_id = Some group →
  g_instances group' = g_instances group →
  allocated_ips (<[group_id := group']> GROUPS) = allocated_ips GROUPS.
Proof.
  intros Hg Hsame. apply set_eq. intros v.
  by rewrite !elem_of_allocated_ips, (recorded_update _ _ group group').
Qed.

(** X14: updates do not disturb the allocator: after any update, accepted or
    not, every allocation returns what it returned before. *)
Theorem allocate_ip_after_put GROUPS group_id request skip :
  allocate_ip (step GROUPS (PUT group_id request)) skip = allocate_ip GROUPS skip.
Proof.
  destruct (step_PUT GROUPS group_id request) as [->|(g & g' & Hg & Hsame & ->)]; [done|].
  unfold allocate_ip. rewrite (allocated_ips_update _ _ g g'); [done..|]. apply Hsame.
Qed.

Lemma first_not_in_ext (X Y : gset (option string)) (addrs : list N) :
  (∀ a, a ∈ addrs → Some (ipaddress.str a) ∈ X ↔ Some (ipaddress.str a) ∈ Y) →
  first_not_in X addrs = first_not_in Y addrs.
Proof.
  induction addrs as [|a addrs IH]; intros Hext; [done|]. simpl.
  assert (Ha : Some (ipaddress.str a) ∈ X ↔ Some (ipaddress.str a) ∈ Y) by (apply Hext; left).
  rewrite IH by (intros b Hb; apply Hext; by right).
  destruct (decide (Some (ipaddress.str a) ∉ X)), (decide (Some (ipaddress.str a) ∉ Y)); tauto.
Qed.

(** X15: of the exclusion list only the address texts of the subnet count:
    two lists that hold the same ones give the same allocation, whatever
    their order, their repetitions and their other elements, [None]
    included. *)
Theorem allocate_ip_skip_as_set GROUPS (skip1 skip2 : list (option string)) :
  (∀ a, in_subnet a →
        Some (ipaddress.str a) ∈ skip1 ↔ Some (ipaddress.str a) ∈ skip2) →
  allocate_ip GROUPS skip1 = allocate_ip GROUPS skip2.
Proof.
  intros Hskip. unfold allocate_ip. apply first_not_in_ext.
  intros a Ha%elem_of_addresses. rewrite !elem_of_union, !elem_of_list_to_set.
  by rewrite (Hskip a Ha).
Qed.

Lemma allocate_ip_skip_as_set_witness :
  allocate_ip (seeded uuid_a uuid_b) [None; Some "172.20.0.5"; Some "172.20.0.5"]
  = allocate_ip (seeded uuid_a uuid_b) [Some "172.20.0.5"].
Proof.
  apply allocate_ip_skip_as_set. intros a _.
  rewrite !elem_of_cons, elem_of_nil. intuition discriminate.
Defined.

(** X16: a creation under a uuid that is already stored replaces that group
    without adding one, and no address text of the new group is an [addr] of
    the group it replaces. *)
Theorem post_replaces_on_collision GROUPS uuid request old :
  GROUPS !! uuid = Some old →
  accepted request = true →
  ∃ group,
    step GROUPS (POST uuid request) !! uuid = Some group
    ∧ dom (step GROUPS (POST uuid request)) = dom GROUPS
    ∧ ∀ instance instance',
        instance ∈ g_instances group → instance' ∈ g_instances old →
        is_Some (i_addr instance) → i_addr instance ≠ i_addr instance'.
Proof.
  intros Hold Hacc.
  destruct (step_POST_accepted GROUPS uuid request Hacc) as (n & m & _ & _ & Hpost).
  unfold step. simpl handle. rewrite Hpost. simpl.
  exists (new_group GROUPS uuid n m). split_and!.
  - apply lookup_insert_eq.
  - rewrite dom_insert_L. apply elem_of_dom_2 in Hold. apply set_eq. intros k.
    rewrite elem_of_union, elem_of_singleton. split; [by intros [->|?]|by right].
  - intros i i' Hi Hi' [r Hr] Heq.
    assert (∃ skip, allocate_ip GROUPS skip = Some r) as [skip Halloc].
    { apply new_group_addrs in Hi. rewrite Hr in Hi. destruct Hi; eauto. }
    apply allocate_ip_not_recorded in Halloc as [Hrec _]. apply Hrec.
    exists uuid, old, i'. split_and!; [done..|]. congruence.
Qed.

Lemma post_replaces_on_collision_witness :
  ∃ group,
    step (seeded uuid_a uuid_b) (POST uuid_a filler) !! uuid_a = Some group
    ∧ dom (step (seeded uuid_a uuid_b) (POST uuid_a filler)) = dom (seeded uuid_a uuid_b).
Proof.
  assert (∃ old, seeded uuid_a uuid_b !! uuid_a = Some old) as [old Hold].
  { vm_compute. by eexists. }
  destruct (post_replaces_on_collision (seeded uuid_a uuid_b) uuid_a filler old Hold eq_refl)
    as (group & Hgroup & Hdom & _).
  exists group. exact (conj Hgroup Hdom).
Defined.

(** ** Filling the subnet *)

Lemma new_group_addr_list GROUPS uuid name memsize :
  i_addr <$> g_instances (new_group GROUPS uuid name memsize)
  = [allocate_ip GROUPS []; allocate_ip GROUPS [allocate_ip GROUPS []]].
Proof. reflexivity. Qed.

Lemma dense_create GROUPS (m : N) uuid name memsize :
  dense GROUPS m → (m + 2 ≤ 65535)%N →
  i_addr <$> g_instances (new_group GROUPS uuid name memsize)
  = [Some (ipaddress.str (2886991872 + m + 1)); Some (ipaddress.str (2886991872 + m + 2))]
  ∧ (GROUPS !! uuid = None → dense (<[uuid := new_group GROUPS uuid name memsize]> GROUPS) (m + 2)).
Proof.
  intros Hdense Hm.
  assert (Haddrs : i_addr <$> g_instances (new_group GROUPS uuid name memsize)
                   = [Some (ipaddress.str (2886991872 + m + 1));
                      Some (ipaddress.str (2886991872 + m + 2))]).
  { rewrite new_group_addr_list, (dense_allocate_first _ m) by (done || lia).
    by rewrite (dense_allocate_second _ m) by (done || lia). }
  split; [done|]. intros Hfresh v. rewrite recorded_insert_fresh by done.
  assert ((∃ instance, instance ∈ g_instances (new_group GROUPS uuid name memsize)
                       ∧ i_addr instance = v)
          ↔ v ∈ i_addr <$> g_instances (new_group GROUPS uuid name memsize)) as ->.
  { rewrite list_elem_of_fmap. split.
    - intros (i & Hi & <-). by exists i.
    - intros (i & -> & Hi). by exists i. }
  rewrite Haddrs, !elem_of_cons, elem_of_nil. unfold dense in Hdense. rewrite Hdense. split.
  - intros [(i & Hi & ->)|[->|[->|[]]]].
    + exists i. split; [lia|done].
    + exists (m + 1)%N. split; [lia|]. do 2 f_equal. lia.
    + exists (m + 2)%N. split; [lia|]. do 2 f_equal. lia.
  - intros (i & Hi & ->).
    destruct (decide (i ≤ m)%N) as [Hle|Hgt]; [left; exists i; split; [lia|done]|].
    right. destruct (decide (i = m + 1)%N) as [->|Hne].
    + left. do 2 f_equal. lia.
    + right. left. do 2 f_equal. lia.
Qed.

(** X17: allocation is sequential. When the store records exactly the [m]
    lowest addresses after the network address and two more exist, an
    accepted creation returns a group with the next two, in this order; under
    a uuid not yet stored, the store then records exactly the [m + 2]
    lowest. *)
Theorem post_takes_next_two GROUPS (m : N) uuid request :
  dense GROUPS m → (m + 2 ≤ 65535)%N → accepted request = true →
  ∃ group,
    GroupList_post uuid request GROUPS
      = (Ret (GroupBody group, 201%Z), <[uuid := group]> GROUPS)
    ∧ i_addr <$> g_instances group
      = [Some (ipaddress.str (2886991872 + m + 1)); Some (ipaddress.str (2886991872 + m + 2))]
    ∧ (GROUPS !! uuid = None → dense (<[uuid := group]> GROUPS) (m + 2)).
Proof.
  intros Hdense Hm Hacc.
  destruct (step_POST_accepted GROUPS uuid request Hacc) as (n & ms & _ & _ & Hpost).
  exists (new_group GROUPS uuid n ms). split; [done|]. by apply dense_create.
Qed.

Lemma post_takes_next_two_witness :
  ∃ group,
    GroupList_post uuid_c filler ∅ = (Ret (GroupBody group, 201%Z), <[uuid_c := group]> ∅)
    ∧ i_addr <$> g_instances group = [Some "172.20.0.1"; Some "172.20.0.2"].
Proof.
  destruct (post_takes_next_two ∅ 0 uuid_c filler) as (group & Hpost & Haddrs & _).
  - apply packed_empty.
  - lia.
  - reflexivity.
  - exists group. exact (conj Hpost Haddrs).
Defined.

Lemma nearly_full_packed : packed nearly_full 32767.
Proof.
  pose proof (packed_run (N.to_nat 32765) 2 _ packed_seeded) as Hpacked.
  rewrite N2Nat.id in Hpacked. apply Hpacked. lia.
Qed.

Lemma full_eq :
  full = <[uuid_of 32767 := new_group nearly_full (uuid_of 32767) "X" float_0_5]> nearly_full.
Proof. reflexivity. Qed.

Lemma dense_then_full GROUPS uuid name memsize (a : N) :
  dense GROUPS 65534 → GROUPS !! uuid = None → in_subnet a →
  unavailable (<[uuid := new_group GROUPS uuid name memsize]> GROUPS) [] a.
Proof.
  intros Hdense Hfresh Ha.
  destruct (decide (a = 2886991872)%N) as [->|Hnet]; [by left|]. right. left.
  apply recorded_insert_fresh; [done|].
  destruct (decide (a ≤ 2886991872 + 65534)%N) as [Hle|Hgt].
  - left. apply Hdense. exists (a - 2886991872)%N. unfold in_subnet in Ha.
    split; [lia|]. do 2 f_equal. lia.
  - right.
    assert (Hin : Some (ipaddress.str a)
                  ∈ i_addr <$> g_instances (new_group GROUPS uuid name memsize)).
    { rewrite new_group_addr_list, (dense_allocate_first _ 65534) by (done || lia).
      apply elem_of_cons. left. do 2 f_equal. unfold in_subnet in Ha. lia. }
    apply list_elem_of_fmap in Hin as (i & Hi & Hin). exists i. split; [exact Hin|].
    symmetry. exact Hi.
Qed.

Lemma full_exhausted (a : N) : in_subnet a → unavailable full [] a.
Proof.
  destruct nearly_full_packed as [_ Hkeys].
  assert (Hfresh : nearly_full !! uuid_of 32767 = None).
  { apply eq_None_not_Some. intros (j & Hj & Heq%uuid_of_inj)%Hkeys; lia. }
  rewrite full_eq. apply dense_then_full; [apply nearly_full_dense|exact Hfresh].
Qed.

(** X18: exhaustion is not an error. When no address of the subnet can be
    handed out, an accepted creation still succeeds with status 201 and
    stores a group whose two instances both have the [addr] [None]; the store
    then holds two instance records with the same [addr]. *)
Theorem post_when_exhausted GROUPS uuid request :
  (∀ a, in_subnet a → unavailable GROUPS [] a) →
  accepted request = true →
  ∃ group,
    GroupList_post uuid request GROUPS
      = (Ret (GroupBody group, 201%Z), <[uuid := group]> GROUPS)
    ∧ i_addr <$> g_instances group = [None; None]
    ∧ ¬ addr_unique (<[uuid := group]> GROUPS).
Proof.
  intros Hall Hacc.
  destruct (step_POST_accepted GROUPS uuid request Hacc) as (n & ms & _ & _ & Hpost).
  assert (Hfirst : allocate_ip GROUPS [] = None) by (by apply allocate_ip_None).
  assert (Hsecond : allocate_ip GROUPS [None] = None).
  { apply allocate_ip_None. intros a Ha. apply unavailable_skip. left. by apply Hall. }
  assert (Hinst : g_instances (new_group GROUPS uuid n ms)
                  = [ {| i_id := uuid +:+ "_1"; i_name := "1"; i_addr := None;
                         i_host := "localhost" |};
                      {| i_id := uuid +:+ "_2"; i_name := "2"; i_addr := None;
                         i_host := "localhost" |} ]).
  { change (g_instances (new_group GROUPS uuid n ms))
      with [ {| i_id := uuid +:+ "_1"; i_name := "1"; i_addr := allocate_ip GROUPS [];
                i_host := "localhost" |};
             {| i_id := uuid +:+ "_2"; i_name := "2";
                i_addr := allocate_ip GROUPS [allocate_ip GROUPS []];
                i_host := "localhost" |} ].
    by rewrite Hfirst, Hsecond. }
  exists (new_group GROUPS uuid n ms). split_and!; [done|by rewrite Hinst|].
  intros Huniq.
  destruct (Huniq uuid (new_group GROUPS uuid n ms) 0%nat
              {| i_id := uuid +:+ "_1"; i_name := "1"; i_addr := None; i_host := "localhost" |}
              uuid (new_group GROUPS uuid n ms) 1%nat
              {| i_id := uuid +:+ "_2"; i_name := "2"; i_addr := None; i_host := "localhost" |})
    as [_ Hn]; rewrite ?lookup_insert_eq, ?Hinst; done.
Qed.

Lemma post_when_exhausted_witness :
  ∃ group,
    GroupList_post (uuid_of 32768) filler full
      = (Ret (GroupBody group, 201%Z), <[uuid_of 32768 := group]> full)
    ∧ i_addr <$> g_instances group = [None; None].
Proof.
  destruct (post_when_exhausted full (uuid_of 32768) filler full_exhausted eq_refl)
    as (group & Hpost & Haddrs & _).
  exists group. exact (conj Hpost Haddrs).
Defined.

(** ** Names and sizes *)





(** ** Capacity *)

Lemma size_set_add {K : Type} `{!EqDecision K, !Countable K} (x : K) (s : gset K) :
  (size (set_add x s) ≤ S (size s))%nat.
Proof.
  rewrite set_add_union, size_union_alt.
  assert (size ({[x]} ∖ s) ≤ 1)%nat; [|lia].
  rewrite <- (size_singleton (C := gset K) x). apply subseteq_size.
  intros y Hy. by apply elem_of_difference in Hy as [? _].
Qed.

Lemma size_add_instances (l : list Instance) (acc : gset (option string)) :
  (size (foldl (fun acc instance => set_add (i_addr instance) acc) acc l)
   ≤ size acc + length l)%nat.
Proof.
  revert acc. induction l as [|i l IH]; intros acc; simpl; [lia|].
  pose proof (IH (set_add (i_addr i) acc)). pose proof (size_set_add (i_addr i) acc). lia.
Qed.

Lemma size_allocated_ips (GROUPS : gmap string Group) :
  (∀ key group, GROUPS !! key = Some group → (length (g_instances group) ≤ 2)%nat) →
  (size (allocated_ips GROUPS) ≤ 1 + 2 * size GROUPS)%nat.
Proof.
  unfold allocated_ips.
  apply (map_fold_weak_ind
    (fun r (m : gmap string Group) =>
       (∀ key group, m !! key = Some group → (length (g_instances group) ≤ 2)%nat) →
       (size r ≤ 1 + 2 * size m)%nat)).
  - intros _. rewrite size_singleton, map_size_empty. lia.
  - intros k g m r Hk IH Hlen. rewrite map_size_insert_None by done.
    pose proof (size_add_instances (g_instances g) r).
    assert (length (g_instances g) ≤ 2)%nat by (apply (Hlen k); apply lookup_insert_eq).
    assert (size r ≤ 1 + 2 * size m)%nat; [|lia].
    apply IH. intros key group Hkey. apply (Hlen key).
    rewrite lookup_insert_ne; [done|]. congruence.
Qed.

Lemma length_range (s : N) (count : nat) : length (ipaddress.range s count) = count.
Proof. revert s. induction count as [|count IH]; intros s; simpl; [done|]. by rewrite IH. Qed.

Lemma NoDup_range (s : N) (count : nat) : NoDup (ipaddress.range s count).
Proof.
  revert s. induction count as [|count IH]; intros s; simpl; constructor; [|apply IH].
  intros Hs%elem_of_range. lia.
Qed.

Lemma size_host_texts : size host_texts = N.to_nat 65535.
Proof.
  unfold host_texts. rewrite size_list_to_set, length_fmap, length_range; [done|].
  apply NoDup_fmap_2_strong; [|apply NoDup_range].
  intros a b Ha%elem_of_range Hb%elem_of_range [= Heq]. rewrite N2Nat.id in Ha, Hb.
  apply str_inj in Heq; [done|lia..].
Qed.

Lemma elem_of_host_texts (v : option string) :
  v ∈ host_texts ↔
  ∃ a, v = Some (ipaddress.str a) ∧ in_subnet a ∧ a ≠ ipaddress.network_address net.
Proof.
  unfold host_texts. rewrite elem_of_list_to_set, list_elem_of_fmap, net_eq.
  cbn [ipaddress.network_address]. unfold in_subnet. split.
  - intros (a & -> & Ha%elem_of_range). rewrite N2Nat.id in Ha. exists a. split_and!; [done|lia..].
  - intros (a & -> & Ha & Hnet). exists a. split; [done|].
    apply elem_of_range. rewrite N2Nat.id. lia.
Qed.

(** Two elements of a set with at least two. *)
Lemma two_elements (X : gset (option string)) :
  (2 ≤ size X)%nat → ∃ x y, x ≠ y ∧ x ∈ X ∧ y ∈ X.
Proof.
  intros Hsize. destruct (size_pos_elem_of X) as [x Hx]; [lia|].
  destruct (size_pos_elem_of (X ∖ {[x]})) as [y Hy].
  { rewrite size_difference, size_singleton; [lia|]. by apply singleton_subseteq_l. }
  apply elem_of_difference in Hy as [Hy Hne]. exists x, y. split_and!; [|done..].
  intros ->. apply Hne. by apply elem_of_singleton.
Qed.

(** Two elements of a set outside a set smaller by two. *)
Lemma two_outside (X R : gset (option string)) :
  (size R + 2 ≤ size X)%nat → ∃ x y, x ≠ y ∧ (x ∈ X ∧ x ∉ R) ∧ (y ∈ X ∧ y ∉ R).
Proof.
  intros Hsize.
  assert (Hcover : X ⊆ (X ∖ R) ∪ R).
  { intros v Hv. apply elem_of_union.
    destruct (decide (v ∈ R)); [by right|left]. by apply elem_of_difference. }
  apply subseteq_size in Hcover. rewrite size_union_alt in Hcover.
  assert (size (R ∖ (X ∖ R)) ≤ size R)%nat as Hle.
  { apply subseteq_size. intros v Hv. by apply elem_of_difference in Hv as [? _]. }
  destruct (two_elements (X ∖ R)) as (x & y & Hxy & Hx & Hy); [lia|].
  apply elem_of_difference in Hx, Hy. by exists x, y.
Qed.

Lemma two_free_capacity (GROUPS : gmap string Group) :
  (∀ key group, GROUPS !! key = Some group → (length (g_instances group) ≤ 2)%nat) →
  (N.of_nat (size GROUPS) < 32767)%N →
  two_free GROUPS.
Proof.
  intros Hlen Hsize. pose proof (size_allocated_ips GROUPS Hlen) as Hrec.
  destruct (two_outside host_texts (allocated_ips GROUPS))
    as (x & y & Hxy & [Hx Hfx] & [Hy Hfy]).
  { rewrite size_host_texts. lia. }
  apply elem_of_host_texts in Hx as (a & -> & Ha & Hneta).
  apply elem_of_host_texts in Hy as (b & -> & Hb & Hnetb).
  exists a, b. split_and!.
  - intros ->. apply Hxy. reflexivity.
  - split; [exact Ha|]. rewrite <- except_list_unavailable by exact Ha.
    rewrite elem_of_union, elem_of_list_to_set, elem_of_nil. tauto.
  - split; [exact Hb|]. rewrite <- except_list_unavailable by exact Hb.
    rewrite elem_of_union, elem_of_list_to_set, elem_of_nil. tauto.
Qed.

(** X20: the subnet has room for 32767 groups. In the seeded store and after
    any list of requests, as long as fewer than 32767 groups are stored, two
    addresses are free, so that the next creation gets two distinct
    addresses. *)
Theorem two_free_below_capacity uuid1 uuid2 (ops : list Op) :
  (N.of_nat (size (run (seeded uuid1 uuid2) ops)) < 32767)%N →
  two_free (run (seeded uuid1 uuid2) ops).
Proof.
  apply two_free_capacity. intros key group Hk.
  destruct (store_well_formed_reachable uuid1 uuid2 ops key group Hk)
    as (_ & _ & _ & a1 & a2 & ->).
  simpl. lia.
Qed.

Lemma two_free_below_capacity_witness : two_free (run (seeded uuid_a uuid_b) []).
Proof. apply two_free_below_capacity. vm_compute. reflexivity. Defined.

(** ** Which addresses a creation takes *)

Lemma allocate_ip_Some_lowest GROUPS skip (a : N) :
  in_subnet a →
  allocate_ip GROUPS skip = Some (ipaddress.str a) →
  ¬ unavailable GROUPS skip a ∧ ∀ b, in_subnet b → (b < a)%N → unavailable GROUPS skip b.
Proof.
  intros Ha Halloc. pose proof (allocate_ip_spec GROUPS skip) as Hspec.
  rewrite Halloc in Hspec. destruct Hspec as (a' & Ha' & [= Heq] & Hfree & Hlow).
  apply str_inj in Heq; [|by apply in_subnet_lt..]. by subst a'.
Qed.

Lemma unavailable_dec GROUPS skip (a : N) :
  in_subnet a → unavailable GROUPS skip a ∨ ¬ unavailable GROUPS skip a.
Proof.
  intros Ha. rewrite <- except_list_unavailable by done.
  destruct (decide (Some (ipaddress.str a) ∈ allocated_ips GROUPS ∪ list_to_set skip)); auto.
Qed.

(** X21: a creation takes the two lowest free addresses, in ascending order.
    When two addresses are free, an accepted creation returns a group whose
    first instance has the lowest free address and whose second instance has
    the lowest of the others. *)
Theorem post_takes_two_lowest_free GROUPS uuid request :
  accepted request = true →
  two_free GROUPS →
  ∃ group a1 a2,
    GroupList_post uuid request GROUPS
      = (Ret (GroupBody group, 201%Z), <[uuid := group]> GROUPS)
    ∧ i_addr <$> g_instances group = [Some (ipaddress.str a1); Some (ipaddress.str a2)]
    ∧ free GROUPS a1 ∧ free GROUPS a2 ∧ (a1 < a2)%N
    ∧ ∀ b, free GROUPS b → (a1 ≤ b)%N ∧ (b ≠ a1 → (a2 ≤ b)%N).
Proof.
  intros Hacc Hfree.
  destruct (step_POST_accepted GROUPS uuid request Hacc) as (n & ms & _ & _ & Hpost).
  destruct (allocate_ip_twice GROUPS Hfree) as (a1 & a2 & H1 & H2 & Hf1 & Hf2 & Hne & _).
  destruct (allocate_ip_Some_lowest GROUPS [] a1) as [_ Hlow1]; [apply Hf1|done|].
  destruct (allocate_ip_Some_lowest GROUPS [Some (ipaddress.str a1)] a2) as [_ Hlow2];
    [apply Hf2|done|].
  assert (Hmin : ∀ b, free GROUPS b → (a1 ≤ b)%N ∧ (b ≠ a1 → (a2 ≤ b)%N)).
  { intros b [Hb Hfb]. split.
    - apply N.le_ngt. intros Hlt. by apply Hfb, Hlow1.
    - intros Hba. apply N.le_ngt. intros Hlt.
      destruct (Hlow2 b Hb Hlt) as [Hnet|[Hrec|Hskip]].
      + apply Hfb. by left.
      + apply Hfb. right. by left.
      + apply list_elem_of_singleton in Hskip as [= Heq].
        apply Hba. apply str_inj; [by apply in_subnet_lt|apply in_subnet_lt, Hf1|done]. }
  exists (new_group GROUPS uuid n ms), a1, a2. split_and!; [done| |done..| |done].
  - by rewrite new_group_addr_list, H1, H2.
  - destruct (Hmin a2 Hf2) as [Hle _]. lia.
Qed.

Lemma post_takes_two_lowest_free_witness :
  ∃ group a1 a2,
    GroupList_post uuid_c filler (seeded uuid_a uuid_b)
      = (Ret (GroupBody group, 201%Z), <[uuid_c := group]> (seeded uuid_a uuid_b))
    ∧ i_addr <$> g_instances group = [Some (ipaddress.str a1); Some (ipaddress.str a2)]
    ∧ (a1 < a2)%N.
Proof.
  destruct (post_takes_two_lowest_free (seeded uuid_a uuid_b) uuid_c filler eq_refl)
    as (group & a1 & a2 & Hpost & Haddrs & _ & _ & Hlt & _).
  - apply two_free_b_true. vm_compute. reflexivity.
  - exists group, a1, a2. exact (conj Hpost (conj Haddrs Hlt)).
Defined.

(** X22: with exactly one address free, an accepted creation still succeeds
    with status 201: its first instance gets that address and its second
    instance the [addr] [None]. *)
Theorem post_with_one_free GROUPS uuid request (a : N) :
  accepted request = true →
  free GROUPS a →
  (∀ b, free GROUPS b → b = a) →
  ∃ group,
    GroupList_post uuid request GROUPS
      = (Ret (GroupBody group, 201%Z), <[uuid := group]> GROUPS)
    ∧ i_addr <$> g_instances group = [Some (ipaddress.str a); None].
Proof.
  intros Hacc [Ha Hfa] Honly.
  destruct (step_POST_accepted GROUPS uuid request Hacc) as (n & ms & _ & _ & Hpost).
  assert (Hothers : ∀ b, in_subnet b → b ≠ a → unavailable GROUPS [] b).
  { intros b Hb Hba. destruct (unavailable_dec GROUPS [] b Hb) as [?|Hfb]; [done|].
    destruct Hba. by apply Honly. }
  assert (H1 : allocate_ip GROUPS [] = Some (ipaddress.str a)).
  { apply allocate_ip_lowest; [done..|]. intros b Hb Hlt. apply Hothers; [done|lia]. }
  assert (H2 : allocate_ip GROUPS [Some (ipaddress.str a)] = None).
  { apply allocate_ip_None. intros b Hb. apply unavailable_skip.
    destruct (decide (b = a)) as [->|Hba]; [by right|left]. by apply Hothers. }
  exists (new_group GROUPS uuid n ms). split; [done|].
  by rewrite new_group_addr_list, H1, H2.
Qed.

Lemma post_with_one_free_witness :
  ∃ group,
    GroupList_post (uuid_of 32767) filler nearly_full
      = (Ret (GroupBody group, 201%Z), <[uuid_of 32767 := group]> nearly_full)
    ∧ i_addr <$> g_instances group = [Some (ipaddress.str 2887057407); None].
Proof.
  apply (post_with_one_free nearly_full (uuid_of 32767) filler 2887057407 eq_refl).
  - split; [unfold in_subnet; lia|].
    rewrite (dense_unavailable nearly_full 65534); [lia|apply nearly_full_dense|lia|].
    unfold in_subnet. lia.
  - intros b [Hb Hfb].
    rewrite (dense_unavailable nearly_full 65534) in Hfb; [|apply nearly_full_dense|lia|done].
    unfold in_subnet in Hb. lia.
Defined.

(** ** The seeded store *)

(** X23: seeding takes the four lowest addresses. Whatever the two uuids, the
    group of Alice is stored under the second with memsize 1.2 and the
    addresses 172.20.0.3 and 172.20.0.4; the group of Bob, with memsize 0.5
    and the addresses 172.20.0.1 and 172.20.0.2, is stored under the first
    unless the two uuids are equal, in which case it is replaced. *)
Theorem seeded_store_content uuid1 uuid2 :
  ∃ bob alice,
    seeded uuid1 uuid2 = <[uuid2 := alice]> (<[uuid1 := bob]> ∅)
    ∧ g_name bob = "memcached for Bob" ∧ g_memsize bob = float_0_5
    ∧ i_addr <$> g_instances bob = [Some "172.20.0.1"; Some "172.20.0.2"]
    ∧ g_name alice = "memcached for Alice" ∧ g_memsize alice = float_1_2
    ∧ i_addr <$> g_instances alice = [Some "172.20.0.3"; Some "172.20.0.4"]
    ∧ seeded uuid1 uuid2 !! uuid2 = Some alice
    ∧ (uuid1 ≠ uuid2 → seeded uuid1 uuid2 !! uuid1 = Some bob)
    ∧ dom (seeded uuid1 uuid2) = {[ uuid1; uuid2 ]}.
Proof.
  rewrite seeded_eq. cbv zeta.
  set (bob := new_group ∅ uuid1 "memcached for Bob" float_0_5).
  assert (Hbob : i_addr <$> g_instances bob = [Some "172.20.0.1"; Some "172.20.0.2"]
                 ∧ dense (<[uuid1 := bob]> ∅) 2).
  { destruct (dense_create ∅ 0 uuid1 "memcached for Bob" float_0_5) as [Haddrs Hdense];
      [apply packed_empty|lia|]. split; [exact Haddrs|]. by apply Hdense, lookup_empty. }
  destruct Hbob as [Hbob Hdense].
  assert (Hnb : g_name bob = "memcached for Bob") by reflexivity.
  assert (Hmb : g_memsize bob = float_0_5) by reflexivity.
  clearbody bob.
  set (alice := new_group (<[uuid1 := bob]> ∅) uuid2 "memcached for Alice" float_1_2).
  assert (Halice : i_addr <$> g_instances alice = [Some "172.20.0.3"; Some "172.20.0.4"]).
  { destruct (dense_create (<[uuid1 := bob]> ∅) 2 uuid2 "memcached for Alice" float_1_2)
      as [Haddrs _]; [exact Hdense|lia|exact Haddrs]. }
  assert (Hna : g_name alice = "memcached for Alice") by reflexivity.
  assert (Hma : g_memsize alice = float_1_2) by reflexivity.
  clearbody alice. exists bob, alice. split_and!; try done.
  - apply lookup_insert_eq.
  - intros Hne. rewrite lookup_insert_ne by done. apply lookup_insert_eq.
  - rewrite !dom_insert_L, dom_empty_L. apply set_eq. intros k.
    rewrite !elem_of_union, !elem_of_singleton, elem_of_empty. tauto.
Qed.
